(** * clrun: the reactive store (StoreService) and its Todo specialization

    A shallow embedding of [StoreService<T>] and [TodoService]
    (src/app/services/todo.service.ts, which also carries store.service.ts
    and todo.model.ts) and the properties of the cache they maintain.

    Modelling conventions.
    - JavaScript arrays and entity objects are heap objects: the model keeps
      a heap of arrays ([arrays]) and a heap of entities ([objs]); the
      cache held by [itemsSubject] is a reference into the array heap, and
      arrays hold references to entities.  Observers of [items$] receive
      that reference, so an in-place update of the current array is visible
      to them.
    - JavaScript numbers that occur (identifiers, [nextId], page numbers)
      are modelled as mathematical integers [Z]; this is exact on the
      safe-integer range.
    - An operation that performs an HTTP call returns [Await req s k]: the
      request issued, the state when the method returns to its caller, and
      the subscription [k] that runs when the response arrives (on whatever
      state the store has by then).  An operation that returns without a
      request yields [Done s].
    - Every [next] on a subject is appended to the [emitted] log. *)

From Stdlib Require Import ZArith Lia.
From stdpp Require Import gmap strings list fin_maps pretty.

Local Open Scope string_scope.
Local Open Scope list_scope.

(** ** JavaScript values used as identifiers *)

(** [uniqueId(): string | number]; [get(id)] may also receive [null] or
    [undefined]. *)
Inductive JsId : Type :=
  | JsNull
  | JsUndefined
  | JsNum (n : Z)
  | JsStr (s : string).

#[global] Instance JsId_eq_dec : EqDecision JsId.
Proof. solve_decision. Defined.

(** [a === b] *)
Definition strict_eq (a b : JsId) : bool := bool_decide (a = b).

(** [a !== b] *)
Definition strict_neq (a b : JsId) : bool := negb (strict_eq a b).

(** String conversion inside a template literal, [`${v}`]. *)
Definition to_string (v : JsId) : string :=
  match v with
  | JsNull => "null"
  | JsUndefined => "undefined"
  | JsNum n => pretty n
  | JsStr s => s
  end.

(** [Number.isSafeInteger]: the range on which [Z] arithmetic and the
    arithmetic of JavaScript numbers agree. *)
Definition safe_integer (n : Z) : Prop := (- 2 ^ 53 < n < 2 ^ 53)%Z.

(** References into the two heaps. *)
Abbreviation ObjRef := nat (only parsing).
Abbreviation ArrRef := nat (only parsing).

(** ** Models (store-entity.model.ts, store-settings.model.ts, todo.model.ts) *)

(** [interface StoreEntity { uniqueId(): string | number }] *)
Class StoreEntity (T : Type) := uniqueId : T → JsId.

Record StoreSettings : Type := mkStoreSettings {
  url : string;
  itemName : string
}.

(** Stand-in for Angular's [HttpErrorResponse]: the store only forwards it. *)
Record HttpErrorResponse : Type := mkHttpErrorResponse {
  status : Z;
  statusText : string
}.

Record Todo : Type := mkTodo {
  id : JsId;
  completed : bool;
  text : string
}.

(** [new Todo()]: the constructor sets [completed] and [text]; [id] stays
    undefined until assigned. *)
Definition new_Todo : Todo :=
  {| id := JsUndefined; completed := false; text := "" |}.

#[global] Instance Todo_StoreEntity : StoreEntity Todo := id.
#[global] Instance Todo_inhabited : Inhabited Todo := populate new_Todo.

(** ** HTTP *)

Inductive HttpRequest : Type :=
  | HttpGet (u : string)
  | HttpPost (u : string) (body : ObjRef)
  | HttpPut (u : string) (body : ObjRef)
  | HttpDelete (u : string).

Inductive Response (A : Type) : Type :=
  | Success (body : A)
  | Failure (e : HttpErrorResponse).
Arguments Success {A} body.
Arguments Failure {A} e.

(** ** Subjects and the state of a store *)

(** One constructor per subject of [StoreService]; [Unhandled] is the error
    notification of [throwError] reaching a subscriber without an error
    callback. *)
Inductive Event (T : Type) : Type :=
  | ItemsNext (a : ArrRef)
  | SelectedNext (v : option T)
  | LoadingNext (b : bool)
  | LoadErrorNext (e : HttpErrorResponse)
  | GetErrorNext (e : HttpErrorResponse)
  | DeletingNext (b : bool)
  | DeleteSuccessNext (v : ObjRef)
  | UpdateSuccessNext (v : ObjRef)
  | CreateSuccessNext (v : ObjRef)
  | NoLoadResultsNext
  | Unhandled (msg : string).
Arguments ItemsNext {T} a.
Arguments SelectedNext {T} v.
Arguments LoadingNext {T} b.
Arguments LoadErrorNext {T} e.
Arguments GetErrorNext {T} e.
Arguments DeletingNext {T} b.
Arguments DeleteSuccessNext {T} v.
Arguments UpdateSuccessNext {T} v.
Arguments CreateSuccessNext {T} v.
Arguments NoLoadResultsNext {T}.
Arguments Unhandled {T} msg.

Record Store (T : Type) : Type := mkStore {
  settings : StoreSettings;
  objs : gmap ObjRef T;                  (* entity objects *)
  arrays : gmap ArrRef (list ObjRef);    (* arrays given to itemsSubject *)
  itemsSubject : ArrRef;                 (* BehaviorSubject<T[]> value *)
  selectedSubject : option T;            (* BehaviorSubject<T> value *)
  loadingSubject : bool;
  deletingSubject : bool;
  emitted : list (Event T)
}.
Arguments mkStore {T}.
Arguments settings {T} s.
Arguments objs {T} s.
Arguments arrays {T} s.
Arguments itemsSubject {T} s.
Arguments selectedSubject {T} s.
Arguments loadingSubject {T} s.
Arguments deletingSubject {T} s.
Arguments emitted {T} s.

Inductive Outcome (T A : Type) : Type :=
  | Done (s : Store T)
  | Await (req : HttpRequest) (s : Store T)
          (k : Response A → Store T → Store T).
Arguments Done {T A} s.
Arguments Await {T A} req s k.

Section StoreService.
Context {T : Type} `{!StoreEntity T} `{!Inhabited T}.

Implicit Types (s : Store T) (item val res : ObjRef).

(** *** Field updates *)

Definition emit (ev : Event T) s : Store T :=
  mkStore (settings s) (objs s) (arrays s) (itemsSubject s)
          (selectedSubject s) (loadingSubject s) (deletingSubject s)
          (emitted s ++ [ev]).

Definition with_arrays (h : gmap ArrRef (list ObjRef)) s : Store T :=
  mkStore (settings s) (objs s) h (itemsSubject s)
          (selectedSubject s) (loadingSubject s) (deletingSubject s)
          (emitted s).

Definition with_objs (h : gmap ObjRef T) s : Store T :=
  mkStore (settings s) h (arrays s) (itemsSubject s)
          (selectedSubject s) (loadingSubject s) (deletingSubject s)
          (emitted s).

Definition with_itemsSubject (a : ArrRef) s : Store T :=
  mkStore (settings s) (objs s) (arrays s) a
          (selectedSubject s) (loadingSubject s) (deletingSubject s)
          (emitted s).

Definition with_selectedSubject (v : option T) s : Store T :=
  mkStore (settings s) (objs s) (arrays s) (itemsSubject s)
          v (loadingSubject s) (deletingSubject s) (emitted s).

Definition with_loadingSubject (b : bool) s : Store T :=
  mkStore (settings s) (objs s) (arrays s) (itemsSubject s)
          (selectedSubject s) b (deletingSubject s) (emitted s).

Definition with_deletingSubject (b : bool) s : Store T :=
  mkStore (settings s) (objs s) (arrays s) (itemsSubject s)
          (selectedSubject s) (loadingSubject s) b (emitted s).

(** *** Heap access *)

(** The contents of array [a]. *)
Definition array_at (a : ArrRef) s : list ObjRef := arrays s !!! a.

(** [o.uniqueId()] for the entity that [o] refers to. *)
Definition uniqueId_of s (o : ObjRef) : JsId := uniqueId (objs s !!! o).

(** [a[i] = x] for an index within the array. *)
Definition array_store (a : ArrRef) (i : nat) (x : ObjRef) s : Store T :=
  with_arrays (<[a := <[i := x]> (array_at a s)]> (arrays s)) s.

(** [a.push(x)] *)
Definition array_push (a : ArrRef) (x : ObjRef) s : Store T :=
  with_arrays (<[a := array_at a s ++ [x]]> (arrays s)) s.

(** *** Getters and setters of the subjects *)

(** [get items()]: the array currently held by the subject, itself. *)
Definition items s : list ObjRef := array_at (itemsSubject s) s.

(** [set items(val)]: [itemsSubject.next(val ? [...val] : [])]; the
    spread allocates a new array. *)
Definition set_items (val : option (list ObjRef)) s : Store T :=
  let a := fresh (dom (arrays s)) in
  let copy := match val with Some v => v | None => [] end in
  emit (ItemsNext a)
    (with_itemsSubject a (with_arrays (<[a := copy]> (arrays s)) s)).

(** [set selected(val)]: [val == null ? null : { ...val }], a copy of
    the entity's fields. *)
Definition set_selected (val : option ObjRef) s : Store T :=
  let v := (λ o, objs s !!! o) <$> val in
  emit (SelectedNext v) (with_selectedSubject v s).

Definition set_loading (b : bool) s : Store T :=
  emit (LoadingNext b) (with_loadingSubject b s).

Definition set_deleting (b : bool) s : Store T :=
  emit (DeletingNext b) (with_deletingSubject b s).

Definition set_loadError (e : HttpErrorResponse) s : Store T :=
  emit (LoadErrorNext e) s.

Definition set_getError (e : HttpErrorResponse) s : Store T :=
  emit (GetErrorNext e) s.

(** *** The observable pipeline

    [.pipe(catchError(h), finalize(f)).subscribe(next)] on the single
    response of an HTTP call: a value runs [next], then completion runs
    [f]; an error runs [h], whose [throwError(msg)] reaches the
    subscriber (which has no error callback), then [f]. *)
Definition subscribe {A : Type}
    (catchError : HttpErrorResponse → Store T → Store T * string)
    (finalize : Store T → Store T)
    (next : A → Store T → Store T)
    (r : Response A) s : Store T :=
  match r with
  | Success a => finalize (next a s)
  | Failure e =>
      let '(s1, msg) := catchError e s in
      finalize (emit (Unhandled msg) s1)
  end.

(** *** Array helpers *)

(** [Array.prototype.findIndex]: the first index whose element
    satisfies [p], or [-1]. *)
Fixpoint findIndex {A : Type} (p : A → bool) (l : list A) : Z :=
  match l with
  | [] => (-1)%Z
  | x :: l' =>
      if p x then 0%Z
      else let i := findIndex p l' in
           if (0 <=? i)%Z then (i + 1)%Z else (-1)%Z
  end.

(** *** Internal primitives *)

Definition remove val s : Store T :=
  set_items
    (Some (filter (λ i, strict_neq (uniqueId_of s i) (uniqueId_of s val))
                  (items s)))
    s.

Definition replaceOrAdd item s : Store T :=
  let existingIndex :=
    findIndex (λ i, strict_eq (uniqueId_of s i) (uniqueId_of s item))
              (items s) in
  if (0 <=? existingIndex)%Z then
    let s1 := array_store (itemsSubject s) (Z.to_nat existingIndex) item s in
    set_items (Some (items s1)) s1
  else
    let s1 := array_push (itemsSubject s) item s in
    set_items (Some (items s1)) s1.

(** *** Public operations *)

Definition load (filter order : string) (page pageSize : Z)
    (useCache append : bool) s : Outcome T (list ObjRef) :=
  if useCache && (0 <? length (items s))%nat then Done s
  else
    let s1 := set_loading true s in
    let u := url (settings s1) +:+ "?filter=" +:+ filter +:+ "&order="
               +:+ order +:+ "&page=" +:+ pretty page +:+ "&pageSize="
               +:+ pretty pageSize in
    Await (HttpGet u) s1
      (subscribe
         (λ e s2, (set_loadError e s2,
                   "Error loading " +:+ itemName (settings s2) +:+ "s"))
         (set_loading false)
         (λ (res : list ObjRef) s2,
            let s3 := if append
                      then set_items (Some (items s2 ++ res)) s2
                      else set_items (Some res) s2 in
            if (length res =? 0)%nat then emit NoLoadResultsNext s3
            else s3)).

Definition get (i : JsId) s : Outcome T ObjRef :=
  if strict_eq i JsNull then Done (set_selected None s)
  else
    let s1 := set_loading true s in
    Await (HttpGet (url (settings s1) +:+ to_string i)) s1
      (subscribe
         (λ e s2, (set_getError e s2,
                   "Error loading " +:+ itemName (settings s2)))
         (set_loading false)
         (λ res s2, set_selected (Some res) (replaceOrAdd res s2))).

Definition add val s : Outcome T ObjRef :=
  let s1 := set_loading true s in
  Await (HttpPost (url (settings s1)) val) s1
    (subscribe
       (λ e s2, (set_getError e s2,
                 "Error creating " +:+ itemName (settings s2)))
       (set_loading false)
       (λ res s2, emit (CreateSuccessNext res) (replaceOrAdd res s2))).

Definition update val s : Outcome T ObjRef :=
  let s1 := set_loading true s in
  let i := uniqueId_of s1 val in
  Await (HttpPut (url (settings s1) +:+ to_string i) val) s1
    (subscribe
       (λ e s2, (set_getError e s2,
                 "Error updating " +:+ itemName (settings s2)))
       (set_loading false)
       (λ res s2, emit (UpdateSuccessNext res) (replaceOrAdd res s2))).

Definition delete val s : Outcome T unit :=
  let s1 := set_deleting true s in
  let i := uniqueId_of s1 val in
  Await (HttpDelete (url (settings s1) +:+ to_string i)) s1
    (subscribe
       (λ e s2, (set_getError e s2,
                 "Error deleting " +:+ itemName (settings s2)))
       (set_deleting false)
       (λ _ s2, emit (DeleteSuccessNext val) (remove val s2))).

Definition select (val : option ObjRef) s : Store T := set_selected val s.

Definition getCached (i : JsId) s : option ObjRef :=
  List.find (λ o, strict_eq (uniqueId_of s o) i) (items s).

Definition findCached (predicate : T → bool) s : option ObjRef :=
  List.find (λ o, predicate (objs s !!! o)) (items s).

Definition clearCached s : Store T := set_items (Some []) s.

(** [new StoreService(http, settings)]: every BehaviorSubject starts
    with its initial value; [heap] is the entity heap at that time. *)
Definition new_StoreService (st : StoreSettings) (heap : gmap ObjRef T)
    : Store T :=
  mkStore st heap {[ 0%nat := [] ]} 0%nat None false false [].

End StoreService.

(** The state the store has when the response [r] arrives right after the
    call returned. *)
Definition respond {T A : Type} (o : Outcome T A) (r : Response A) : Store T :=
  match o with
  | Done s => s
  | Await _ s k => k r s
  end.

(** The request a call issued, if any, and the state at its return. *)
Definition request_of {T A : Type} (o : Outcome T A) : option HttpRequest :=
  match o with
  | Done _ => None
  | Await req _ _ => Some req
  end.

Definition returned {T A : Type} (o : Outcome T A) : Store T :=
  match o with
  | Done s => s
  | Await _ s _ => s
  end.

(** ** TodoService: the store of todos, with local add, update, complete *)

Record TodoService : Type := mkTodoService {
  store : Store Todo;
  nextId : Z
}.

(** The constructor; [apiUrl] is [environment.apiUrl]. *)
Definition new_TodoService (apiUrl : string) (heap : gmap ObjRef Todo)
    : TodoService :=
  {| store := new_StoreService
                {| url := apiUrl +:+ "todo"; itemName := "Todo" |} heap;
     nextId := 1 |}.

Definition on_store (f : Store Todo → Store Todo) (ts : TodoService)
    : TodoService :=
  {| store := f (store ts); nextId := nextId ts |}.

(** [this.nextId++; return this.nextId] *)
Definition getNextId (ts : TodoService) : Z * TodoService :=
  let ts1 := {| store := store ts; nextId := (nextId ts + 1)%Z |} in
  (nextId ts1, ts1).

(** [todo.id = v]: a write to the entity object itself. *)
Definition assign_id (todo : ObjRef) (v : JsId) (s : Store Todo) : Store Todo :=
  let o := objs s !!! todo in
  with_objs
    (<[todo := {| id := v; completed := completed o; text := text o |}]>
       (objs s)) s.

Definition addTodo (todo : ObjRef) (ts : TodoService) : TodoService :=
  let '(n, ts1) := getNextId ts in
  let ts2 := on_store (assign_id todo (JsNum n)) ts1 in
  let ts3 := on_store (replaceOrAdd todo) ts2 in
  on_store (emit (CreateSuccessNext todo)) ts3.

Definition updateTodo (todo : ObjRef) (ts : TodoService) : TodoService :=
  let ts1 := on_store (replaceOrAdd todo) ts in
  on_store (emit (UpdateSuccessNext todo)) ts1.

Definition completeTodo (todo : ObjRef) (ts : TodoService) : TodoService :=
  on_store (remove todo) ts.

(** ** Derived notions used in the statements *)

(** No two cached entities share a [uniqueId()] value. *)
Definition unique_cache {T : Type} `{!StoreEntity T} `{!Inhabited T}
    (s : Store T) : Prop :=
  NoDup (uniqueId_of s <$> items s).

(** A sequence of [replaceOrAdd] calls, first item first. *)
Definition replaceOrAdd_all {T : Type} `{!StoreEntity T} `{!Inhabited T}
    (xs : list ObjRef) (s : Store T) : Store T :=
  foldl (λ acc item, replaceOrAdd item acc) s xs.

(** The last entity of [history] whose identifier is [i]. *)
Definition latest (uid : ObjRef → JsId) (i : JsId) (history : list ObjRef)
    : option ObjRef :=
  last (filter (λ o, uid o = i) history).

(** The merge that [replaceOrAdd] performs, written on the contents of the
    cache: the first entity with the identifier of [item] gives its place
    to [item]; without one, [item] goes to the end. *)
Fixpoint upsert (uid : ObjRef → JsId) (item : ObjRef) (l : list ObjRef)
    : list ObjRef :=
  match l with
  | [] => [item]
  | x :: l' =>
      if decide (uid x = uid item) then item :: l'
      else x :: upsert uid item l'
  end.

(** [op] keeps [P]: the state at its return satisfies [P], and so does
    the state after its subscription has run, whenever the response [r]
    arrives on a state [s2] that satisfies [P] and [ok s2 r]. *)
Definition op_preserves {T A : Type} (P : Store T → Prop)
    (ok : Store T → Response A → Prop) (op : Store T → Outcome T A) : Prop :=
  ∀ s, P s →
    P (returned (op s)) ∧
    ∀ req s1 k, op s = Await req s1 k →
      ∀ r s2, P s2 → ok s2 r → P (k r s2).

Definition any_response {T A : Type} (s : Store T) (r : Response A) : Prop :=
  True.

(** What a successful [load] makes the cache: the response, or the
    present cache followed by the response. *)
Definition loaded {T : Type} `{!StoreEntity T} `{!Inhabited T}
    (append : bool) (s : Store T) (res : list ObjRef) : list ObjRef :=
  if append then items s ++ res else res.

(** A response to [load] whose entities, with those of the cache when
    appending, carry no identifier twice. *)
Definition load_result_unique {T : Type} `{!StoreEntity T} `{!Inhabited T}
    (append : bool) (s : Store T) (r : Response (list ObjRef)) : Prop :=
  match r with
  | Success res => NoDup (uniqueId_of s <$> loaded append s res)
  | Failure _ => True
  end.

(** The call [o], made on [s], issued a request with the loading flag
    raised, and its subscription lowers the flag as its last step whatever
    the response and the state it arrives on. *)
Definition loading_guarded {T A : Type} (s : Store T) (o : Outcome T A)
    : Prop :=
  ∃ req s1 k,
    o = Await req s1 k ∧
    loadingSubject s1 = true ∧
    emitted s1 = emitted s ++ [LoadingNext true] ∧
    ∀ r s2, loadingSubject (k r s2) = false ∧
            last (emitted (k r s2)) = Some (LoadingNext false).

(** The values delivered on the get/create/update-error stream. *)
Definition getError_events {T : Type} (tr : list (Event T))
    : list HttpErrorResponse :=
  omap (λ ev, match ev with GetErrorNext e => Some e | _ => None end) tr.

(** ** Sample states *)

Module Sample.

Definition todo_a : Todo := {| id := JsNum 1; completed := false; text := "a" |}.
Definition todo_a2 : Todo := {| id := JsNum 1; completed := false; text := "a2" |}.
Definition todo_b : Todo := {| id := JsNum 2; completed := false; text := "b" |}.
Definition milk : Todo := {| id := JsUndefined; completed := false; text := "buy milk" |}.

Definition heap : gmap ObjRef Todo :=
  <[0%nat := todo_a]> (<[1%nat := todo_a2]> (<[2%nat := todo_b]>
    (<[3%nat := milk]> (<[4%nat := milk]> ∅)))).

Definition fresh_service : TodoService := new_TodoService "/api/" heap.

(** An empty store. *)
Definition st0 : Store Todo := store fresh_service.

(** The store with cache [[a; b]]. *)
Definition st_ab : Store Todo := replaceOrAdd 2%nat (replaceOrAdd 0%nat st0).

(** The store with cache [[a]]. *)
Definition st_a : Store Todo := replaceOrAdd 0%nat st0.

Definition err : HttpErrorResponse := {| status := 500; statusText := "Server Error" |}.

End Sample.

(** ** Further notions *)

(** The identifiers of the cache, in cache order. *)
Definition cached_ids {T : Type} `{!StoreEntity T} `{!Inhabited T}
    (s : Store T) : list JsId :=
  uniqueId_of s <$> items s.

(** The values delivered on the load-error stream. *)
Definition loadError_events {T : Type} (tr : list (Event T))
    : list HttpErrorResponse :=
  omap (λ ev, match ev with LoadErrorNext e => Some e | _ => None end) tr.

(** How often the no-results event was delivered. *)
Definition noLoadResults_count {T : Type} (tr : list (Event T)) : nat :=
  length (omap (λ ev, match ev with
                      | NoLoadResultsNext => Some ()
                      | _ => None
                      end) tr).

(** [addTodo] for each entity of [todos] in turn. *)
Definition addTodo_all (todos : list ObjRef) (ts : TodoService)
    : TodoService :=
  foldl (λ acc todo, addTodo todo acc) ts todos.

(** Every cached todo carries a number as identifier, and none of them
    is above [nextId]: the identifiers [addTodo] hands out are new. *)
Definition ids_issued (ts : TodoService) : Prop :=
  ∀ o, o ∈ items (store ts) →
       ∃ n, uniqueId_of (store ts) o = JsNum n ∧ (n ≤ nextId ts)%Z.

(** ** TodoListComponent (the page that drives TodoService)

    The methods of the component class.  [newTodo] is unset until
    [ngOnInit] runs; the service is the injected instance, threaded
    through.  The [todos$] pipeline of the class is not part of this
    model. *)
Module TodoListComponent.

Record state : Type := mkState {
  newTodo : option ObjRef;
  todoService : TodoService
}.

(** The constructor only stores the service. *)
Definition constructor (ts : TodoService) : state :=
  {| newTodo := None; todoService := ts |}.

(** [new Todo()]: a new entity object. *)
Definition alloc_Todo (s : Store Todo) : ObjRef * Store Todo :=
  let r := fresh (dom (objs s)) in
  (r, with_objs (<[r := new_Todo]> (objs s)) s).

(** [this.newTodo = new Todo(); this.newTodo.id = this.todoService.getNextId()] *)
Definition resetNewTodo (c : state) : state :=
  let '(r, st1) := alloc_Todo (store (todoService c)) in
  let ts1 := {| store := st1; nextId := nextId (todoService c) |} in
  let '(n, ts2) := getNextId ts1 in
  let ts3 := on_store (assign_id r (JsNum n)) ts2 in
  {| newTodo := Some r; todoService := ts3 |}.

Definition ngOnInit (c : state) : state := resetNewTodo c.

(** [addTodo(form)], [valid] being [form.valid].  With [newTodo] unset
    the assignment [todo.id = ...] inside the service throws a TypeError:
    the result is [None], and the state a throw leaves behind is not
    modelled. *)
Definition addTodo (valid : bool) (c : state) : option state :=
  if negb valid then Some c
  else
    match newTodo c with
    | None => None
    | Some r =>
        Some (resetNewTodo
                {| newTodo := Some r;
                   todoService := addTodo r (todoService c) |})
    end.

Definition completeTodo (todo : ObjRef) (c : state) : state :=
  {| newTodo := newTodo c;
     todoService := completeTodo todo (todoService c) |}.

(** The state of the page between two user actions, once [ngOnInit] has
    run: the entity being edited exists, carries the identifier handed
    out last and is not cached; every cached entity exists, and the
    identifiers in the cache were issued by the service. *)
Definition ready (c : state) : Prop :=
  ∃ r, newTodo c = Some r ∧
       (r ∈ dom (objs (store (todoService c)))) ∧
       (r ∉ items (store (todoService c))) ∧
       uniqueId_of (store (todoService c)) r
         = JsNum (nextId (todoService c)) ∧
       (∀ o, o ∈ items (store (todoService c)) →
             o ∈ dom (objs (store (todoService c)))) ∧
       ids_issued (todoService c).

(** A service whose cached entities exist and whose cached identifiers
    it issued itself; a new service is one. *)
Definition service_ready (ts : TodoService) : Prop :=
  (∀ o, o ∈ items (store ts) → o ∈ dom (objs (store ts))) ∧
  ids_issued ts.

End TodoListComponent.

Module Sample2.

(** The page after construction and [ngOnInit], on a new service. *)
Definition page0 : TodoListComponent.state :=
  TodoListComponent.ngOnInit
    (TodoListComponent.constructor (new_TodoService "/api/" ∅)).

End Sample2.

Example findIndex_sample_found :
  findIndex (λ n, (n =? 7)%nat) [3; 7; 7]%nat = 1%Z.
Proof. reflexivity. Qed.

Example findIndex_sample_absent :
  findIndex (λ n, (n =? 9)%nat) [3; 7; 7]%nat = (-1)%Z.
Proof. reflexivity. Qed.

Example sample_cache : items Sample.st_ab = [0; 2]%nat.
Proof. vm_compute. reflexivity. Qed.

(** The update scenario: the cache [[a; b]] with a response [a2] for
    identifier 1 becomes [[a2; b]]. *)
Example sample_update :
  items (respond (update 0%nat Sample.st_ab) (Success 1%nat)) = [1; 2]%nat.
Proof. vm_compute. reflexivity. Qed.

Example sample_update_request :
  request_of (update 0%nat Sample.st_ab) = Some (HttpPut "/api/todo1" 0%nat).
Proof. vm_compute. reflexivity. Qed.

Example sample_load_request :
  request_of (load "x" "" 2 10 false false Sample.st_ab)
  = Some (HttpGet "/api/todo?filter=x&order=&page=2&pageSize=10").
Proof. vm_compute. reflexivity. Qed.

(** * Properties *)

(** ** Strict equality *)

Lemma strict_eq_true a b : strict_eq a b = true ↔ a = b.
Proof. unfold strict_eq. apply bool_decide_eq_true. Qed.

Lemma strict_eq_false a b : strict_eq a b = false ↔ a ≠ b.
Proof. unfold strict_eq. apply bool_decide_eq_false. Qed.

Lemma strict_neq_Is_true a b : Is_true (strict_neq a b) ↔ a ≠ b.
Proof.
  unfold strict_neq, strict_eq. rewrite negb_True, bool_decide_spec. tauto.
Qed.

(** ** findIndex *)

Section FindIndex.
Context {A : Type} (p : A → bool).

Lemma findIndex_range (l : list A) :
  (findIndex p l = -1 ∨ 0 ≤ findIndex p l < Z.of_nat (length l))%Z.
Proof.
  induction l as [|x l IH]; simpl; [by left|].
  destruct (p x); [right; lia|].
  destruct (Z.leb_spec 0 (findIndex p l)); [right; lia | by left].
Qed.

(** A non-negative result is the first position that satisfies [p]. *)
Lemma findIndex_found (l : list A) :
  (0 ≤ findIndex p l)%Z →
  ∃ n x, findIndex p l = Z.of_nat n ∧ l !! n = Some x ∧ p x = true ∧
         ∀ j y, (j < n)%nat → l !! j = Some y → p y = false.
Proof.
  induction l as [|x l IH]; simpl; [lia|].
  destruct (p x) eqn:Hx.
  - intros _. exists 0%nat, x. repeat split; [done.. | intros; lia].
  - destruct (Z.leb_spec 0 (findIndex p l)) as [Hle|Hlt]; [|lia].
    intros _. destruct (IH Hle) as (n & y & Hn & Hy & Hpy & Hbefore).
    exists (S n), y. repeat split; [lia | done | done |].
    intros [|j] z Hj Hz; simplify_eq/=; [done|].
    eapply Hbefore; [|done]. lia.
Qed.

Lemma findIndex_absent (l : list A) :
  (findIndex p l < 0)%Z → ∀ x, x ∈ l → p x = false.
Proof.
  induction l as [|x l IH]; simpl; [intros _ y Hy; by inversion Hy|].
  destruct (p x) eqn:Hx; [lia|].
  destruct (Z.leb_spec 0 (findIndex p l)) as [Hle|Hlt].
  - pose proof (findIndex_range l). lia.
  - intros _ y [->|Hy]%elem_of_cons; [done | by apply IH].
Qed.

(** The first satisfying position, when there is one, is the result. *)
Lemma findIndex_first (l : list A) n x :
  l !! n = Some x → p x = true →
  (∀ j y, (j < n)%nat → l !! j = Some y → p y = false) →
  findIndex p l = Z.of_nat n.
Proof.
  revert n. induction l as [|z l IH]; intros n Hn Hx Hbefore; [done|].
  simpl. destruct n as [|n]; simplify_eq/=.
  - by rewrite Hx.
  - rewrite (Hbefore 0%nat z); [|lia|done].
    rewrite (IH n); [|done|done|].
    + destruct (Z.leb_spec 0 (Z.of_nat n)); lia.
    + intros j y ? ?. apply (Hbefore (S j)); [lia|done].
Qed.

Lemma findIndex_none (l : list A) :
  (∀ x, x ∈ l → p x = false) → findIndex p l = (-1)%Z.
Proof.
  intros Hl. destruct (findIndex_range l) as [|Hr]; [done|].
  destruct (findIndex_found l) as (n & x & _ & Hx & Hp & _); [lia|].
  rewrite Hl in Hp; [done|]. by eapply list_elem_of_lookup_2.
Qed.

End FindIndex.

(** ** The merge on lists *)

Section Upsert.
Variable uid : ObjRef → JsId.

Implicit Types (l xs : list ObjRef) (item x : ObjRef) (i : JsId).

Lemma upsert_found l n x item :
  l !! n = Some x → uid x = uid item →
  (∀ j y, (j < n)%nat → l !! j = Some y → uid y ≠ uid item) →
  upsert uid item l = <[n := item]> l.
Proof.
  revert n. induction l as [|z l IH]; intros n Hn Hx Hbefore; [done|].
  destruct n as [|n]; simplify_eq/=.
  - by rewrite decide_True.
  - rewrite decide_False by (apply (Hbefore 0%nat); [lia|done]).
    f_equal. apply IH; [done..|].
    intros j y ? ?. apply (Hbefore (S j)); [lia|done].
Qed.

Lemma upsert_absent l item :
  (∀ y, y ∈ l → uid y ≠ uid item) → upsert uid item l = l ++ [item].
Proof.
  induction l as [|z l IH]; intros Hl; [done|]. simpl.
  rewrite decide_False by (apply Hl; left).
  f_equal. apply IH. intros y Hy. apply Hl. by right.
Qed.

Lemma upsert_nil item : upsert uid item [] = [item].
Proof. done. Qed.

Lemma upsert_singleton_ne x item :
  uid x ≠ uid item → upsert uid item [x] = [x; item].
Proof. intros Hne. simpl. by rewrite decide_False. Qed.

Lemma upsert_ids_elem l item i :
  i ∈ uid <$> upsert uid item l ↔ i = uid item ∨ i ∈ uid <$> l.
Proof.
  induction l as [|z l IH]; simpl.
  - rewrite list_elem_of_singleton, elem_of_nil. tauto.
  - destruct (decide (uid z = uid item)) as [Hz|Hz]; simpl;
      rewrite !elem_of_cons.
    + rewrite Hz. tauto.
    + rewrite IH. tauto.
Qed.

Lemma upsert_ids_NoDup l item :
  NoDup (uid <$> l) → NoDup (uid <$> upsert uid item l).
Proof.
  induction l as [|z l IH]; simpl.
  - intros _. apply NoDup_singleton.
  - rewrite NoDup_cons. intros [Hz Hl].
    destruct (decide (uid z = uid item)) as [Heq|Heq]; simpl;
      apply NoDup_cons.
    + by rewrite <- Heq.
    + split; [|by apply IH].
      rewrite upsert_ids_elem. intros [?|?]; [congruence | done].
Qed.

(** Looking an identifier up after a merge. *)
Lemma find_upsert l item i :
  List.find (λ o, strict_eq (uid o) i) (upsert uid item l) =
    if decide (uid item = i) then Some item
    else List.find (λ o, strict_eq (uid o) i) l.
Proof.
  induction l as [|z l IH]; simpl.
  - unfold strict_eq. case_bool_decide; case_decide; done.
  - destruct (decide (uid z = uid item)) as [Hz|Hz]; simpl.
    + rewrite Hz. unfold strict_eq.
      case_bool_decide; case_decide; done.
    + rewrite IH. unfold strict_eq.
      case_bool_decide; case_decide; congruence.
Qed.

Lemma latest_snoc i xs x :
  latest uid i (xs ++ [x]) =
    if decide (uid x = i) then Some x else latest uid i xs.
Proof.
  unfold latest. rewrite filter_app, filter_cons, filter_nil.
  case_decide.
  - by rewrite last_snoc.
  - by rewrite app_nil_r.
Qed.

(** In a list without repeated identifiers the first entity with an
    identifier is also the last. *)
Lemma find_latest_unique l i :
  NoDup (uid <$> l) →
  List.find (λ o, strict_eq (uid o) i) l = latest uid i l.
Proof.
  unfold latest. induction l as [|z l IH]; [done|].
  simpl. rewrite NoDup_cons. intros [Hz Hl].
  rewrite filter_cons. unfold strict_eq at 1.
  case_bool_decide as Hi; case_decide; try done.
  - destruct (filter (λ o, uid o = i) l) as [|y k] eqn:Hf; [done|].
    assert (y ∈ filter (λ o, uid o = i) l) as [Hyi Hy]%list_elem_of_filter
      by (rewrite Hf; left).
    exfalso. apply Hz. rewrite Hi, <- Hyi. by apply list_elem_of_fmap_2.
  - by apply IH.
Qed.

(** A sequence of merges answers each lookup with the last entity
    applied for that identifier. *)
Lemma find_foldl_upsert l xs i :
  NoDup (uid <$> l) →
  List.find (λ o, strict_eq (uid o) i)
            (foldl (λ acc item, upsert uid item acc) l xs) =
    latest uid i (l ++ xs).
Proof.
  intros Hl. induction xs as [|x xs IH] using rev_ind.
  - rewrite app_nil_r. by apply find_latest_unique.
  - rewrite foldl_snoc, find_upsert, app_assoc, latest_snoc.
    by rewrite IH.
Qed.

Lemma foldl_upsert_NoDup l xs :
  NoDup (uid <$> l) →
  NoDup (uid <$> foldl (λ acc item, upsert uid item acc) l xs).
Proof.
  revert l. induction xs as [|x xs IH]; intros l Hl; [done|].
  simpl. by apply IH, upsert_ids_NoDup.
Qed.

Lemma foldl_upsert_ids l xs i :
  i ∈ uid <$> foldl (λ acc item, upsert uid item acc) l xs ↔
  i ∈ uid <$> l ∨ i ∈ uid <$> xs.
Proof.
  revert l. induction xs as [|x xs IH]; intros l; simpl.
  - rewrite elem_of_nil. tauto.
  - rewrite IH, upsert_ids_elem, elem_of_cons. tauto.
Qed.

End Upsert.

(** ** The store: setters and the internal primitives *)

Section StoreFacts.
Context {T : Type} `{!StoreEntity T} `{!Inhabited T}.

Implicit Types (s : Store T) (item val : ObjRef) (xs : list ObjRef).

Lemma uniqueId_of_objs s s' :
  objs s = objs s' → uniqueId_of s = uniqueId_of s'.
Proof. unfold uniqueId_of. by intros ->. Qed.

Lemma items_emit ev s : items (emit ev s) = items s.
Proof. done. Qed.

Lemma items_set_loading b s : items (set_loading b s) = items s.
Proof. done. Qed.

Lemma items_set_deleting b s : items (set_deleting b s) = items s.
Proof. done. Qed.

Lemma items_set_selected v s : items (set_selected v s) = items s.
Proof. done. Qed.

Lemma items_set_items v s : items (set_items v s) = default [] v.
Proof.
  unfold items, set_items, array_at. simpl.
  rewrite lookup_total_insert_eq. by destruct v.
Qed.

Lemma set_items_fresh v s : itemsSubject (set_items v s) ∉ dom (arrays s).
Proof. simpl. apply is_fresh. Qed.

(** The setter leaves every array that exists where it is. *)
Lemma arrays_set_items v s a l :
  arrays s !! a = Some l → arrays (set_items v s) !! a = Some l.
Proof.
  intros Ha. simpl. rewrite lookup_insert_ne; [done|].
  intros Heq. apply (is_fresh (dom (arrays s))).
  rewrite Heq. apply elem_of_dom. by eexists.
Qed.

Lemma emitted_set_items v s :
  emitted (set_items v s) =
    emitted s ++ [ItemsNext (itemsSubject (set_items v s))].
Proof. done. Qed.

Lemma items_array_store i x s :
  items (array_store (itemsSubject s) i x s) = <[i := x]> (items s).
Proof.
  unfold items, array_store, array_at. simpl.
  by rewrite lookup_total_insert_eq.
Qed.

Lemma items_array_push x s :
  items (array_push (itemsSubject s) x s) = items s ++ [x].
Proof.
  unfold items, array_push, array_at. simpl.
  by rewrite lookup_total_insert_eq.
Qed.

Lemma objs_replaceOrAdd item s : objs (replaceOrAdd item s) = objs s.
Proof. unfold replaceOrAdd. by case_match. Qed.

Lemma objs_remove val s : objs (remove val s) = objs s.
Proof. done. Qed.

(** [replaceOrAdd] computes the merge [upsert] on the cache. *)
Lemma items_replaceOrAdd item s :
  items (replaceOrAdd item s) = upsert (uniqueId_of s) item (items s).
Proof.
  unfold replaceOrAdd.
  set (p := λ i, strict_eq (uniqueId_of s i) (uniqueId_of s item)).
  destruct (Z.leb_spec 0 (findIndex p (items s))) as [Hle|Hlt].
  - destruct (findIndex_found p (items s) Hle)
      as (n & x & -> & Hx & Hpx & Hbefore).
    rewrite items_set_items, Nat2Z.id. simpl.
    rewrite items_array_store. symmetry.
    apply (upsert_found _ _ n x); [done | by apply strict_eq_true |].
    intros j y Hj Hy. apply strict_eq_false. by apply (Hbefore j).
  - rewrite items_set_items. simpl. rewrite items_array_push.
    symmetry. apply upsert_absent. intros y Hy.
    apply strict_eq_false. by apply (findIndex_absent p (items s)).
Qed.

Lemma items_remove val s :
  items (remove val s) =
    filter (λ i, uniqueId_of s i ≠ uniqueId_of s val) (items s).
Proof.
  unfold remove. rewrite items_set_items. simpl.
  apply list_filter_iff. intros x. apply strict_neq_Is_true.
Qed.

Lemma replaceOrAdd_all_cons x xs s :
  replaceOrAdd_all (x :: xs) s = replaceOrAdd_all xs (replaceOrAdd x s).
Proof. done. Qed.

Lemma objs_replaceOrAdd_all xs s : objs (replaceOrAdd_all xs s) = objs s.
Proof.
  revert s. induction xs as [|x xs IH]; intros s; [done|].
  by rewrite replaceOrAdd_all_cons, IH, objs_replaceOrAdd.
Qed.

Lemma items_replaceOrAdd_all xs s :
  items (replaceOrAdd_all xs s) =
    foldl (λ acc item, upsert (uniqueId_of s) item acc) (items s) xs.
Proof.
  revert s. induction xs as [|x xs IH]; intros s; [done|].
  rewrite replaceOrAdd_all_cons, IH, items_replaceOrAdd.
  by rewrite (uniqueId_of_objs _ s (objs_replaceOrAdd x s)).
Qed.

Lemma unique_cache_replaceOrAdd item s :
  unique_cache s → unique_cache (replaceOrAdd item s).
Proof.
  unfold unique_cache. intros Hs.
  rewrite items_replaceOrAdd,
    (uniqueId_of_objs _ s (objs_replaceOrAdd item s)).
  by apply upsert_ids_NoDup.
Qed.

Lemma unique_cache_remove val s :
  unique_cache s → unique_cache (remove val s).
Proof.
  unfold unique_cache. intros Hs. rewrite items_remove.
  rewrite (uniqueId_of_objs (remove val s) s) by done.
  revert Hs. generalize (items s). intros l.
  induction l as [|x l IH]; [done|].
  rewrite fmap_cons, NoDup_cons, filter_cons. intros [Hx Hl].
  case_decide; [|by apply IH].
  rewrite fmap_cons. apply NoDup_cons. split; [|by apply IH].
  intros (y & Hxy & [_ Hy]%list_elem_of_filter)%list_elem_of_fmap.
  apply Hx. rewrite Hxy. by apply list_elem_of_fmap_2.
Qed.

Lemma unique_cache_set_items l s :
  unique_cache (set_items (Some l) s) ↔ NoDup (uniqueId_of s <$> l).
Proof.
  unfold unique_cache. rewrite items_set_items. simpl.
  by rewrite (uniqueId_of_objs (set_items (Some l) s) s).
Qed.

End StoreFacts.

(** ** The cache after replaceOrAdd calls *)

Section ReplaceOrAdd.
Context {T : Type} `{!StoreEntity T} `{!Inhabited T}.

Implicit Types (s t : Store T) (item : ObjRef) (xs : list ObjRef).

(** In a cache without repeated identifiers the entity with the
    identifier of [item] is replaced where it stands. *)
Lemma replaceOrAdd_in_place t item n x :
  unique_cache t → items t !! n = Some x →
  uniqueId_of t x = uniqueId_of t item →
  items (replaceOrAdd item t) = <[n := item]> (items t).
Proof.
  intros Hu Hn Hx. rewrite items_replaceOrAdd.
  apply (upsert_found _ _ n x); [done..|].
  intros j y Hj Hy Heq.
  assert (j = n); [|lia].
  eapply (NoDup_lookup _ j n (uniqueId_of t y) Hu);
    rewrite list_lookup_fmap.
  - by rewrite Hy.
  - rewrite Hn. simpl. congruence.
Qed.

Lemma replaceOrAdd_append t item :
  (∀ y, y ∈ items t → uniqueId_of t y ≠ uniqueId_of t item) →
  items (replaceOrAdd item t) = items t ++ [item].
Proof. intros Ht. rewrite items_replaceOrAdd. by apply upsert_absent. Qed.

End ReplaceOrAdd.

(** C1: after any sequence of [replaceOrAdd] calls on a cache without
    repeated identifiers, the cache has no repeated identifier, its
    identifiers are those of the initial cache and of the items applied,
    and looking an identifier up yields the last entity applied for it; a
    call replaces the entity that has the item's identifier at its
    position, and appends the item at the end when there is none. *)
Theorem replaceOrAdd_sequence_last_applied
    {T : Type} `{!StoreEntity T} `{!Inhabited T}
    (s : Store T) (xs : list ObjRef) :
  unique_cache s →
  let s' := replaceOrAdd_all xs s in
  unique_cache s' ∧
  (∀ i, i ∈ uniqueId_of s' <$> items s' ↔
        i ∈ uniqueId_of s <$> items s ∨ i ∈ uniqueId_of s <$> xs) ∧
  (∀ i, getCached i s' = latest (uniqueId_of s) i (items s ++ xs)) ∧
  (∀ (t : Store T) item n x,
     unique_cache t → items t !! n = Some x →
     uniqueId_of t x = uniqueId_of t item →
     items (replaceOrAdd item t) = <[n := item]> (items t)) ∧
  (∀ (t : Store T) item,
     (∀ y, y ∈ items t → uniqueId_of t y ≠ uniqueId_of t item) →
     items (replaceOrAdd item t) = items t ++ [item]).
Proof.
  intros Hu s'.
  assert (uniqueId_of s' = uniqueId_of s) as Huid
    by apply uniqueId_of_objs, objs_replaceOrAdd_all.
  assert (items s' =
          foldl (λ acc item, upsert (uniqueId_of s) item acc) (items s) xs)
    as Hitems by apply items_replaceOrAdd_all.
  split; [|split; [|split; [|split]]].
  - unfold unique_cache. rewrite Huid, Hitems. by apply foldl_upsert_NoDup.
  - intros i. rewrite Huid, Hitems. apply foldl_upsert_ids.
  - intros i. unfold getCached. rewrite Huid, Hitems.
    by apply find_foldl_upsert.
  - intros t item n x. apply replaceOrAdd_in_place.
  - intros t item. apply replaceOrAdd_append.
Qed.

Lemma replaceOrAdd_sequence_last_applied_witness :
  unique_cache Sample.st0 ∧
  getCached (JsNum 1) (replaceOrAdd_all [0; 2; 1]%nat Sample.st0) =
    latest (uniqueId_of Sample.st0) (JsNum 1)
           (items Sample.st0 ++ [0; 2; 1]%nat).
Proof.
  assert (unique_cache Sample.st0) as Hu by (vm_compute; constructor).
  split; [exact Hu|].
  exact (proj1 (proj2 (proj2
    (replaceOrAdd_sequence_last_applied Sample.st0 [0; 2; 1]%nat Hu)))
    (JsNum 1)).
Defined.

Example replaceOrAdd_sequence_sample :
  items (replaceOrAdd_all [0; 2; 1]%nat Sample.st0) = [1; 2]%nat.
Proof. vm_compute. reflexivity. Qed.

(** ** Uniqueness of identifiers in the cache *)

Section Uniqueness.
Context {T : Type} `{!StoreEntity T} `{!Inhabited T}.

Implicit Types (s : Store T) (val : ObjRef).

(** Uniqueness looks at the cache and at the entities only. *)
Lemma unique_cache_same s s' :
  items s' = items s → objs s' = objs s →
  unique_cache s ↔ unique_cache s'.
Proof.
  intros Hi Ho. unfold unique_cache.
  by rewrite Hi, (uniqueId_of_objs s' s Ho).
Qed.

Lemma unique_cache_clearCached s : unique_cache (clearCached s).
Proof. apply unique_cache_set_items. simpl. apply NoDup_nil_2. Qed.

Lemma unique_cache_load_success (append : bool) (res : list ObjRef) s :
  unique_cache
    (if append then set_items (Some (items s ++ res)) s
     else set_items (Some res) s)
  ↔ NoDup (uniqueId_of s <$> loaded append s res).
Proof. unfold loaded. destruct append; apply unique_cache_set_items. Qed.

Lemma get_preserves_unique i :
  op_preserves unique_cache any_response (get i).
Proof.
  intros s Hs. unfold get. destruct (strict_eq i JsNull).
  - split; [exact Hs | intros ? ? ? [=]].
  - split; [exact Hs|].
    intros req s1 k [= _ _ <-] [res|e] s2 Hs2 _; simpl.
    + by apply (unique_cache_replaceOrAdd res) in Hs2.
    + exact Hs2.
Qed.

Lemma add_preserves_unique val :
  op_preserves unique_cache any_response (add val).
Proof.
  intros s Hs. split; [exact Hs|].
  intros req s1 k [= _ _ <-] [res|e] s2 Hs2 _; simpl.
  - by apply (unique_cache_replaceOrAdd res) in Hs2.
  - exact Hs2.
Qed.

Lemma update_preserves_unique val :
  op_preserves unique_cache any_response (update val).
Proof.
  intros s Hs. split; [exact Hs|].
  intros req s1 k [= _ _ <-] [res|e] s2 Hs2 _; simpl.
  - by apply (unique_cache_replaceOrAdd res) in Hs2.
  - exact Hs2.
Qed.

Lemma delete_preserves_unique val :
  op_preserves unique_cache any_response (delete val).
Proof.
  intros s Hs. split; [exact Hs|].
  intros req s1 k [= _ _ <-] [res|e] s2 Hs2 _; simpl.
  - by apply (unique_cache_remove val) in Hs2.
  - exact Hs2.
Qed.

(** The state a successful [load] subscription leaves. *)
Lemma load_success_unique filter order page pageSize useCache append
    s req s1 k res s2 :
  load filter order page pageSize useCache append s = Await req s1 k →
  unique_cache (k (Success res) s2)
  ↔ NoDup (uniqueId_of s2 <$> loaded append s2 res).
Proof.
  unfold load. case_match; [done|]. intros [= _ _ <-]. simpl.
  rewrite <- unique_cache_load_success.
  destruct (length res =? 0)%nat; [|done].
  by destruct append.
Qed.

Lemma load_preserves_unique filter order page pageSize useCache append :
  op_preserves unique_cache (load_result_unique append)
               (load filter order page pageSize useCache append).
Proof.
  intros s Hs. split.
  - unfold load. by case_match.
  - intros req s1 k Hload [res|e] s2 Hs2 Hok.
    + by apply (load_success_unique _ _ _ _ _ _ _ _ _ _ _ _ Hload).
    + revert Hload. unfold load. case_match; [done|].
      by intros [= _ _ <-].
Qed.

End Uniqueness.

(** C2, as the code has it: uniqueness of identifiers in the cache is kept
    by [replaceOrAdd], [remove], [clearCached], [get], [add], [update],
    [delete] and a failed [load]; a successful [load] makes the cache the
    response ([append = false]) or the cache followed by the response
    ([append = true]) without removing duplicates, and the result is
    unique exactly when that sequence carries no identifier twice. *)
Theorem uniqueness_kept_unless_load_duplicates
    {T : Type} `{!StoreEntity T} `{!Inhabited T} :
  (∀ (item : ObjRef) (s : Store T),
     unique_cache s → unique_cache (replaceOrAdd item s)) ∧
  (∀ (val : ObjRef) (s : Store T),
     unique_cache s → unique_cache (remove val s)) ∧
  (∀ s : Store T, unique_cache (clearCached s)) ∧
  (∀ i, op_preserves (T:=T) unique_cache any_response (get i)) ∧
  (∀ val, op_preserves (T:=T) unique_cache any_response (add val)) ∧
  (∀ val, op_preserves (T:=T) unique_cache any_response (update val)) ∧
  (∀ val, op_preserves (T:=T) unique_cache any_response (delete val)) ∧
  (∀ filter order page pageSize useCache append,
     op_preserves (T:=T) unique_cache (load_result_unique append)
       (load filter order page pageSize useCache append)) ∧
  (∀ filter order page pageSize useCache append
     (s : Store T) req s1 k res s2,
     load filter order page pageSize useCache append s = Await req s1 k →
     items (k (Success res) s2) = loaded append s2 res ∧
     (unique_cache (k (Success res) s2)
      ↔ NoDup (uniqueId_of s2 <$> loaded append s2 res))).
Proof.
  split_and!.
  - intros item s. apply unique_cache_replaceOrAdd.
  - intros val s. apply unique_cache_remove.
  - apply unique_cache_clearCached.
  - apply get_preserves_unique.
  - apply add_preserves_unique.
  - apply update_preserves_unique.
  - apply delete_preserves_unique.
  - apply load_preserves_unique.
  - intros filter order page pageSize useCache append s req s1 k res s2 Hload.
    split; [|by apply (load_success_unique _ _ _ _ _ _ _ _ _ _ _ _ Hload)].
    revert Hload. unfold load. case_match; [done|]. intros [= _ _ <-]. simpl.
    unfold loaded.
    destruct (length res =? 0)%nat, append;
      by rewrite items_set_loading, ?items_emit, items_set_items.
Qed.

Lemma uniqueness_kept_unless_load_duplicates_witness :
  unique_cache Sample.st_a ∧ unique_cache (replaceOrAdd 2%nat Sample.st_a).
Proof.
  assert (unique_cache Sample.st_a) as Hu
    by (vm_compute; apply NoDup_singleton).
  split; [exact Hu|].
  exact (proj1 (uniqueness_kept_unless_load_duplicates (T:=Todo))
               2%nat Sample.st_a Hu).
Defined.

(** C2 as stated fails for [load]: with the cache [[a]] (identifier 1), a
    [load] with [append = true] whose response holds an entity with
    identifier 1 leaves two cached entities with that identifier. *)
Lemma load_append_repeats_identifier :
  unique_cache Sample.st_a ∧
  items (respond (load "" "" 0 0 false true Sample.st_a) (Success [1%nat]))
    = [0; 1]%nat ∧
  uniqueId_of Sample.st_a 0%nat = uniqueId_of Sample.st_a 1%nat ∧
  ¬ unique_cache
      (respond (load "" "" 0 0 false true Sample.st_a) (Success [1%nat])).
Proof.
  split_and!.
  - vm_compute. apply NoDup_singleton.
  - vm_compute. reflexivity.
  - vm_compute. reflexivity.
  - vm_compute. intros Hnd. apply NoDup_cons in Hnd as [Hnotin _].
    apply Hnotin. left.
Qed.

(** The same without appending: a response that repeats an identifier
    becomes the cache as it is. *)
Example load_replace_repeats_identifier :
  items (respond (load "" "" 0 0 false false Sample.st0)
                 (Success [0; 1]%nat)) = [0; 1]%nat.
Proof. vm_compute. reflexivity. Qed.

(** ** load and get *)

(** C4: [load] with [useCache = true] on a non-empty cache returns at once:
    no request is issued and the store is the one it was, so the loading
    flag is not touched, nothing is emitted and the cache is unchanged. *)
Theorem load_useCache_nonempty_is_noop
    {T : Type} `{!StoreEntity T} `{!Inhabited T}
    (filter order : string) (page pageSize : Z) (append : bool)
    (s : Store T) :
  items s ≠ [] →
  load filter order page pageSize true append s = Done s.
Proof.
  intros Hne. unfold load. destruct (items s); [done|]. reflexivity.
Qed.

Lemma load_useCache_nonempty_is_noop_witness :
  (items Sample.st_a ≠ []) ∧
  (load "f" "o" 1 20 true true Sample.st_a = Done Sample.st_a).
Proof.
  assert (items Sample.st_a ≠ []) as Hne by (vm_compute; discriminate).
  split; [exact Hne|].
  exact (load_useCache_nonempty_is_noop "f" "o" 1 20 true Sample.st_a Hne).
Defined.

(** C5: when a [load] with [append = false] receives the empty list, the
    cache becomes a new, empty array, and the no-results event is emitted
    after the emission of that cache (then the loading flag is lowered). *)
Theorem load_replace_with_empty_result
    {T : Type} `{!StoreEntity T} `{!Inhabited T}
    (filter order : string) (page pageSize : Z) (useCache : bool)
    (s : Store T) req s1 k (s2 : Store T) :
  load filter order page pageSize useCache false s = Await req s1 k →
  let s3 := k (Success []) s2 in
  items s3 = [] ∧
  (itemsSubject s3 ∉ dom (arrays s2)) ∧
  emitted s3 = emitted s2 ++ [ItemsNext (itemsSubject s3);
                              NoLoadResultsNext; LoadingNext false].
Proof.
  unfold load. case_match; [done|]. intros [= _ _ <-]. simpl.
  split_and!.
  - unfold items, array_at. simpl. by rewrite lookup_total_insert_eq.
  - apply is_fresh.
  - by rewrite <- !app_assoc.
Qed.

Lemma load_replace_with_empty_result_witness :
  items (respond (load "" "" 0 0 false false Sample.st_ab) (Success [])) = [].
Proof.
  exact (proj1 (load_replace_with_empty_result "" "" 0 0 false Sample.st_ab
                  _ _ _ _ eq_refl)).
Defined.

(** C6: [get(null)] sets the selection to none and returns: no request,
    the loading flag and the cache as they were, one emission on the
    selection stream. *)
Theorem get_null_clears_selection
    {T : Type} `{!StoreEntity T} `{!Inhabited T} (s : Store T) :
  get JsNull s = Done (set_selected None s) ∧
  request_of (get JsNull s) = None ∧
  selectedSubject (returned (get JsNull s)) = None ∧
  loadingSubject (returned (get JsNull s)) = loadingSubject s ∧
  items (returned (get JsNull s)) = items s ∧
  arrays (returned (get JsNull s)) = arrays s ∧
  emitted (returned (get JsNull s)) = emitted s ++ [SelectedNext None].
Proof. by split_and!. Qed.

(** C10: [get(undefined)] does not take the path of [get(null)]: the
    selection stays, the loading flag is raised and a GET for the
    resource URL followed by the text of the identifier is issued; only
    [null] returns without a request. *)
Theorem get_undefined_issues_request
    {T : Type} `{!StoreEntity T} `{!Inhabited T} (s : Store T) :
  request_of (get JsUndefined s)
    = Some (HttpGet (url (settings s) +:+ "undefined")) ∧
  returned (get JsUndefined s) = set_loading true s ∧
  selectedSubject (returned (get JsUndefined s)) = selectedSubject s ∧
  loadingSubject (returned (get JsUndefined s)) = true ∧
  emitted (returned (get JsUndefined s)) = emitted s ++ [LoadingNext true] ∧
  (∀ i, request_of (get i s) = None ↔ i = JsNull) ∧
  (∀ i, i ≠ JsNull →
        request_of (get i s)
          = Some (HttpGet (url (settings s) +:+ to_string i))).
Proof.
  split_and!; try done.
  - intros i. unfold get.
    destruct (strict_eq i JsNull) eqn:Hi; simpl.
    + by apply strict_eq_true in Hi.
    + apply strict_eq_false in Hi. split; [done | by intros ->].
  - intros i Hi. unfold get.
    apply strict_eq_false in Hi. by rewrite Hi.
Qed.

Lemma get_undefined_issues_request_witness :
  request_of (get (JsNum 7) Sample.st0) = Some (HttpGet "/api/todo7").
Proof.
  exact (proj2 (proj2 (proj2 (proj2 (proj2 (proj2
    (get_undefined_issues_request Sample.st0))))))
    (JsNum 7) ltac:(discriminate)).
Defined.

(** ** The in-flight flags *)

Section Flags.
Context {T : Type} `{!StoreEntity T} `{!Inhabited T}.

Implicit Types (s : Store T) (val : ObjRef).

(** A subscription that finalizes with [set_loading false] ends with
    the flag lowered, on a value and on an error. *)
Lemma subscribe_finalize_loading {A : Type} catch (next : A → Store T → Store T)
    (r : Response A) s :
  loadingSubject (subscribe catch (set_loading false) next r s) = false ∧
  last (emitted (subscribe catch (set_loading false) next r s))
    = Some (LoadingNext false).
Proof.
  destruct r as [a|e]; simpl.
  - by rewrite last_snoc.
  - destruct (catch e s) as [s1 msg]. simpl. by rewrite last_snoc.
Qed.

Lemma load_loading_guarded filter order page pageSize useCache append s :
  request_of (load filter order page pageSize useCache append s) ≠ None →
  loading_guarded s (load filter order page pageSize useCache append s).
Proof.
  unfold load. case_match; [done|]. intros _.
  eexists _, _, _. split; [reflexivity|].
  split_and!; [done | done |]. intros r s2.
  apply subscribe_finalize_loading.
Qed.

Lemma get_loading_guarded i s :
  i ≠ JsNull → loading_guarded s (get i s).
Proof.
  intros Hi%strict_eq_false. unfold get. rewrite Hi.
  eexists _, _, _. split; [reflexivity|].
  split_and!; [done | done |]. intros r s2.
  apply subscribe_finalize_loading.
Qed.

Lemma add_loading_guarded val s : loading_guarded s (add val s).
Proof.
  eexists _, _, _. split; [reflexivity|].
  split_and!; [done | done |]. intros r s2.
  apply subscribe_finalize_loading.
Qed.

Lemma update_loading_guarded val s : loading_guarded s (update val s).
Proof.
  eexists _, _, _. split; [reflexivity|].
  split_and!; [done | done |]. intros r s2.
  apply subscribe_finalize_loading.
Qed.

End Flags.

(** C8: every [load], [get] with a non-null identifier, [add] and [update]
    that issues a request raises the loading flag when it does, and the
    subscription lowers it as its last step on a successful and on a
    failed response alike. *)
Theorem loading_lowered_on_success_and_failure
    {T : Type} `{!StoreEntity T} `{!Inhabited T} (s : Store T) :
  (∀ filter order page pageSize useCache append,
     request_of (load filter order page pageSize useCache append s) ≠ None →
     loading_guarded s (load filter order page pageSize useCache append s)) ∧
  (∀ i, i ≠ JsNull → loading_guarded s (get i s)) ∧
  (∀ val, loading_guarded s (add val s)) ∧
  (∀ val, loading_guarded s (update val s)).
Proof.
  split_and!.
  - intros *. apply load_loading_guarded.
  - intros i. apply get_loading_guarded.
  - intros val. apply add_loading_guarded.
  - intros val. apply update_loading_guarded.
Qed.

Lemma loading_lowered_on_success_and_failure_witness :
  loading_guarded Sample.st_ab (load "" "" 0 0 false true Sample.st_ab) ∧
  loading_guarded Sample.st_ab (get (JsNum 2) Sample.st_ab).
Proof.
  split.
  - apply (proj1 (loading_lowered_on_success_and_failure Sample.st_ab)).
    vm_compute. discriminate.
  - apply (proj1 (proj2 (loading_lowered_on_success_and_failure Sample.st_ab))).
    discriminate.
Defined.

Example loading_after_failed_update :
  loadingSubject (respond (update 0%nat Sample.st_ab) (Failure Sample.err))
    = false.
Proof. vm_compute. reflexivity. Qed.

(** ** delete *)

(** C7: a failed [delete] leaves the cache (and every array and entity)
    as it was, lowers the deleting flag, and emits the transport error,
    as received, once on the stream shared with get, create and update. *)
Theorem delete_failure_leaves_cache
    {T : Type} `{!StoreEntity T} `{!Inhabited T}
    (val : ObjRef) (s : Store T) :
  ∃ k,
    delete val s =
      Await (HttpDelete (url (settings s) +:+ to_string (uniqueId_of s val)))
            (set_deleting true s) k ∧
    ∀ e s2,
      let s3 := k (Failure e) s2 in
      items s3 = items s2 ∧
      arrays s3 = arrays s2 ∧
      itemsSubject s3 = itemsSubject s2 ∧
      objs s3 = objs s2 ∧
      deletingSubject s3 = false ∧
      emitted s3 =
        emitted s2 ++ [GetErrorNext e;
                       Unhandled ("Error deleting " +:+ itemName (settings s2));
                       DeletingNext false] ∧
      getError_events (emitted s3) = getError_events (emitted s2) ++ [e].
Proof.
  eexists. split; [reflexivity|].
  intros e s2. simpl. split_and!; try done.
  - by rewrite <- !app_assoc.
  - unfold getError_events. by rewrite !omap_app, <- !app_assoc.
Qed.

(** The scenario of the documentation: the cache [[a; b]], a failed
    delete of [b]. *)
Example delete_failure_sample :
  items (respond (delete 2%nat Sample.st_ab) (Failure Sample.err))
    = [0; 2]%nat ∧
  deletingSubject (respond (delete 2%nat Sample.st_ab) (Failure Sample.err))
    = false ∧
  getError_events
    (emitted (respond (delete 2%nat Sample.st_ab) (Failure Sample.err)))
    = [Sample.err].
Proof. vm_compute. done. Qed.

(** ** Arrays that were emitted on items$ *)

Section Snapshots.
Context {T : Type} `{!StoreEntity T} `{!Inhabited T}.

Implicit Types (s : Store T) (item val : ObjRef) (l : list ObjRef).

Lemma remove_keeps_arrays val s a l :
  arrays s !! a = Some l → arrays (remove val s) !! a = Some l.
Proof. apply arrays_set_items. Qed.

Lemma clearCached_keeps_arrays s a l :
  arrays s !! a = Some l → arrays (clearCached s) !! a = Some l.
Proof. apply arrays_set_items. Qed.

Lemma load_keeps_arrays filter order page pageSize useCache append
    s req s1 k r s2 a l :
  load filter order page pageSize useCache append s = Await req s1 k →
  arrays s2 !! a = Some l → arrays (k r s2) !! a = Some l.
Proof.
  unfold load. case_match; [done|]. intros [= _ _ <-] Ha.
  destruct r as [res|e]; [|done].
  unfold subscribe.
  destruct (length res =? 0)%nat, append;
    by apply (arrays_set_items _ s2).
Qed.

(** [replaceOrAdd] writes the merge into the array that the subject
    holds when it is called, the one last emitted, before it emits a
    copy of it. *)
Lemma replaceOrAdd_current_array item s :
  arrays (replaceOrAdd item s) !! itemsSubject s
    = Some (upsert (uniqueId_of s) item (items s)).
Proof.
  rewrite <- items_replaceOrAdd. unfold replaceOrAdd. case_match.
  - rewrite items_set_items. apply arrays_set_items.
    unfold items, array_store, array_at. simpl.
    by rewrite lookup_insert_eq, lookup_total_insert_eq.
  - rewrite items_set_items. apply arrays_set_items.
    unfold items, array_push, array_at. simpl.
    by rewrite lookup_insert_eq, lookup_total_insert_eq.
Qed.

Lemma replaceOrAdd_other_arrays item s a l :
  a ≠ itemsSubject s →
  arrays s !! a = Some l → arrays (replaceOrAdd item s) !! a = Some l.
Proof.
  intros Hne Ha. unfold replaceOrAdd.
  case_match; apply arrays_set_items; simpl; by rewrite lookup_insert_ne.
Qed.

End Snapshots.

(** C3 at a concrete state: the cache [[a]] lives in array 1, which was
    emitted on items$.  A [replaceOrAdd] of [a2] (same identifier), also
    as the merge of a successful [update], and a [replaceOrAdd] of [b] (a
    new identifier) change array 1 itself; the array emitted next is
    array 2. *)
Lemma replaceOrAdd_rewrites_emitted_array :
  emitted Sample.st_a = [ItemsNext 1%nat] ∧
  array_at 1%nat Sample.st_a = [0%nat] ∧
  array_at 1%nat (replaceOrAdd 1%nat Sample.st_a) = [1%nat] ∧
  array_at 1%nat (respond (update 0%nat Sample.st_a) (Success 1%nat))
    = [1%nat] ∧
  array_at 1%nat (replaceOrAdd 2%nat Sample.st_a) = [0; 2]%nat ∧
  itemsSubject (replaceOrAdd 2%nat Sample.st_a) = 2%nat.
Proof. vm_compute. done. Qed.

(** The paths that build a new array leave array 1 alone. *)
Example remove_keeps_emitted_array :
  array_at 1%nat (remove 0%nat Sample.st_a) = [0%nat] ∧
  array_at 1%nat (clearCached Sample.st_a) = [0%nat] ∧
  array_at 1%nat
    (respond (load "" "" 0 0 false true Sample.st_a) (Success [2%nat]))
    = [0%nat].
Proof. vm_compute. done. Qed.

(** ** TodoService.addTodo *)

Section AddTodo.

Implicit Types (s : Store Todo) (ts : TodoService) (todo o : ObjRef).

Lemma uniqueId_of_assign_id_eq todo v s :
  uniqueId_of (assign_id todo v s) todo = v.
Proof.
  unfold uniqueId_of, assign_id. simpl. by rewrite lookup_total_insert_eq.
Qed.

Lemma uniqueId_of_assign_id_ne todo v s o :
  o ≠ todo → uniqueId_of (assign_id todo v s) o = uniqueId_of s o.
Proof.
  intros Hne. unfold uniqueId_of, assign_id. simpl.
  by rewrite lookup_total_insert_ne.
Qed.

Lemma emitted_replaceOrAdd todo s :
  emitted (replaceOrAdd todo s) =
    emitted s ++ [ItemsNext (itemsSubject (replaceOrAdd todo s))].
Proof. unfold replaceOrAdd. by case_match. Qed.

(** [addTodo] step by step. *)
Lemma addTodo_unfold todo ts :
  store (addTodo todo ts) =
    emit (CreateSuccessNext todo)
      (replaceOrAdd todo
         (assign_id todo (JsNum (nextId ts + 1)) (store ts))) ∧
  nextId (addTodo todo ts) = (nextId ts + 1)%Z.
Proof. done. Qed.

Lemma uniqueId_of_addTodo_eq todo ts :
  uniqueId_of (store (addTodo todo ts)) todo = JsNum (nextId ts + 1).
Proof.
  destruct (addTodo_unfold todo ts) as [-> _].
  rewrite (uniqueId_of_objs _ (assign_id todo (JsNum (nextId ts + 1)) (store ts)))
    by apply objs_replaceOrAdd.
  apply uniqueId_of_assign_id_eq.
Qed.

Lemma uniqueId_of_addTodo_ne todo ts o :
  o ≠ todo →
  uniqueId_of (store (addTodo todo ts)) o = uniqueId_of (store ts) o.
Proof.
  intros Hne. destruct (addTodo_unfold todo ts) as [-> _].
  rewrite (uniqueId_of_objs _ (assign_id todo (JsNum (nextId ts + 1)) (store ts)))
    by apply objs_replaceOrAdd.
  by apply uniqueId_of_assign_id_ne.
Qed.

Lemma items_addTodo todo ts :
  items (store (addTodo todo ts)) =
    upsert (uniqueId_of (store (addTodo todo ts))) todo (items (store ts)).
Proof.
  destruct (addTodo_unfold todo ts) as [Hst _]. rewrite Hst at 1.
  rewrite items_emit, items_replaceOrAdd. f_equal.
  rewrite Hst. apply uniqueId_of_objs. symmetry. apply objs_replaceOrAdd.
Qed.

Lemma emitted_addTodo todo ts :
  emitted (store (addTodo todo ts)) =
    emitted (store ts)
      ++ [ItemsNext (itemsSubject (store (addTodo todo ts)));
          CreateSuccessNext todo].
Proof.
  destruct (addTodo_unfold todo ts) as [-> _]. simpl.
  rewrite emitted_replaceOrAdd. by rewrite <- app_assoc.
Qed.

End AddTodo.

(** C9: on an empty cache, [addTodo] for two entities, one after the
    other, gives them the identifiers [nextId + 1] and [nextId + 2], the
    second greater than the first; the cache holds the two entities in
    that order; each call emits the new cache and then a create-success
    event carrying the entity, which has its identifier by then. *)
Theorem addTodo_twice_from_empty
    (ts : TodoService) (todo1 todo2 : ObjRef) :
  items (store ts) = [] →
  todo1 ≠ todo2 →
  safe_integer (nextId ts) → safe_integer (nextId ts + 2) →
  let ts1 := addTodo todo1 ts in
  let ts2 := addTodo todo2 ts1 in
  let id1 := (nextId ts + 1)%Z in
  let id2 := (nextId ts + 2)%Z in
  (id1 < id2)%Z ∧
  uniqueId_of (store ts1) todo1 = JsNum id1 ∧
  uniqueId_of (store ts2) todo1 = JsNum id1 ∧
  uniqueId_of (store ts2) todo2 = JsNum id2 ∧
  items (store ts2) = [todo1; todo2] ∧
  length (items (store ts2)) = 2%nat ∧
  emitted (store ts1) =
    emitted (store ts) ++ [ItemsNext (itemsSubject (store ts1));
                           CreateSuccessNext todo1] ∧
  emitted (store ts2) =
    emitted (store ts1) ++ [ItemsNext (itemsSubject (store ts2));
                            CreateSuccessNext todo2].
Proof.
  intros Hempty Hne _ _ ts1 ts2 id1 id2.
  assert (uniqueId_of (store ts1) todo1 = JsNum id1) as H1
    by apply uniqueId_of_addTodo_eq.
  assert (uniqueId_of (store ts2) todo1 = JsNum id1) as H21.
  { unfold ts2. by rewrite uniqueId_of_addTodo_ne. }
  assert (uniqueId_of (store ts2) todo2 = JsNum id2) as H22.
  { unfold ts2. rewrite uniqueId_of_addTodo_eq.
    unfold ts1. destruct (addTodo_unfold todo1 ts) as [_ ->].
    unfold id2. f_equal. lia. }
  assert (items (store ts2) = [todo1; todo2]) as Hitems.
  { unfold ts2. rewrite items_addTodo. fold ts2.
    unfold ts1 at 1. rewrite items_addTodo, Hempty, upsert_nil.
    apply upsert_singleton_ne.
    rewrite H21, H22. unfold id1, id2. intros [=]. lia. }
  split_and!; try done.
  - unfold id1, id2. lia.
  - by rewrite Hitems.
  - apply emitted_addTodo.
  - apply emitted_addTodo.
Qed.

Lemma addTodo_twice_from_empty_witness :
  items (store (addTodo 4%nat (addTodo 3%nat Sample.fresh_service)))
    = [3; 4]%nat.
Proof.
  assert (items (store Sample.fresh_service) = []) as Hempty
    by (vm_compute; reflexivity).
  assert (safe_integer (nextId Sample.fresh_service)) as Hs1
    by (vm_compute; split; reflexivity).
  assert (safe_integer (nextId Sample.fresh_service + 2)) as Hs2
    by (vm_compute; split; reflexivity).
  exact (proj1 (proj2 (proj2 (proj2 (proj2
    (addTodo_twice_from_empty Sample.fresh_service 3%nat 4%nat
       Hempty ltac:(discriminate) Hs1 Hs2)))))).
Defined.

(** The scenario of the documentation, evaluated: two new todos get the
    identifiers 2 and 3. *)
Example addTodo_twice_sample :
  let ts2 := addTodo 4%nat (addTodo 3%nat Sample.fresh_service) in
  uniqueId_of (store ts2) <$> items (store ts2) = [JsNum 2; JsNum 3] ∧
  nextId ts2 = 3%Z.
Proof. vm_compute. done. Qed.

(** [addTodo] writes the identifier into the object it is given: passing
    one object twice renumbers the cached entity and replaces it by
    itself. *)
Example addTodo_same_object_twice :
  let ts2 := addTodo 3%nat (addTodo 3%nat Sample.fresh_service) in
  items (store ts2) = [3%nat] ∧
  uniqueId_of (store ts2) 3%nat = JsNum 3.
Proof. vm_compute. done. Qed.

(** * Further properties of the store *)

(** ** Looking identifiers up *)

Section Lookup.
Variable uid : ObjRef → JsId.

Implicit Types (l : list ObjRef) (item o : ObjRef) (i j : JsId).

Lemma find_id_None l i :
  List.find (λ o, strict_eq (uid o) i) l = None ↔ i ∉ uid <$> l.
Proof.
  induction l as [|x l IH]; simpl.
  - split; [intros _; apply not_elem_of_nil | done].
  - rewrite not_elem_of_cons. unfold strict_eq at 1.
    case_bool_decide as Hx.
    + split; [done | intros [Hne _]; congruence].
    + rewrite IH. split; [intros ?; split; [congruence | done] | tauto].
Qed.

Lemma find_id_Some l i o :
  List.find (λ o, strict_eq (uid o) i) l = Some o → o ∈ l ∧ uid o = i.
Proof.
  intros [Hin Heq]%List.find_some. split.
  - by apply list_elem_of_In.
  - by apply strict_eq_true.
Qed.

Lemma find_id_unique l o :
  NoDup (uid <$> l) → o ∈ l →
  List.find (λ x, strict_eq (uid x) (uid o)) l = Some o.
Proof.
  induction l as [|x l IH]; [intros _ Ho; by apply elem_of_nil in Ho|].
  rewrite fmap_cons, NoDup_cons. intros [Hx Hl] Ho. simpl.
  unfold strict_eq at 1. case_bool_decide as Heq.
  - apply elem_of_cons in Ho as [->|Ho]; [done|].
    exfalso. apply Hx. rewrite Heq. by apply list_elem_of_fmap_2.
  - apply elem_of_cons in Ho as [->|Ho]; [done | by apply IH].
Qed.

Lemma find_filter_ne l i j :
  List.find (λ o, strict_eq (uid o) i) (filter (λ o, uid o ≠ j) l) =
    if decide (i = j) then None
    else List.find (λ o, strict_eq (uid o) i) l.
Proof.
  induction l as [|x l IH]; [by case_decide|].
  rewrite filter_cons. destruct (decide (uid x ≠ j)) as [Hx|Hx]; simpl.
  - unfold strict_eq at 1 3. case_bool_decide as Hi.
    + rewrite decide_False; [done | congruence].
    + apply IH.
  - apply dec_stable in Hx. rewrite IH. case_decide; [done|].
    unfold strict_eq at 2. rewrite bool_decide_eq_false_2; [done|congruence].
Qed.

Lemma filter_ne_absent l j :
  (∀ y, y ∈ l → uid y ≠ j) → filter (λ o, uid o ≠ j) l = l.
Proof.
  induction l as [|x l IH]; intros Hl; [done|].
  rewrite filter_cons_True by (apply Hl; left).
  f_equal. apply IH. intros y Hy. apply Hl. by right.
Qed.

Lemma upsert_idempotent l item :
  upsert uid item (upsert uid item l) = upsert uid item l.
Proof.
  induction l as [|x l IH]; simpl.
  - by rewrite decide_True.
  - destruct (decide (uid x = uid item)) as [Hx|Hx]; simpl.
    + by rewrite decide_True.
    + rewrite decide_False by done. by rewrite IH.
Qed.

(** Merging an entity into a list that holds it, and no other entity
    with its identifier, changes nothing. *)
Lemma upsert_member l item :
  NoDup (uid <$> l) → item ∈ l → upsert uid item l = l.
Proof.
  induction l as [|x l IH]; [intros _ Ho; by apply elem_of_nil in Ho|].
  rewrite fmap_cons, NoDup_cons. intros [Hx Hl] Ho. simpl.
  destruct (decide (uid x = uid item)) as [Heq|Hne].
  - apply elem_of_cons in Ho as [->|Ho]; [done|].
    exfalso. apply Hx. rewrite Heq. by apply list_elem_of_fmap_2.
  - apply elem_of_cons in Ho as [->|Ho]; [done|]. f_equal. by apply IH.
Qed.

Lemma upsert_length_present l item :
  uid item ∈ uid <$> l → length (upsert uid item l) = length l.
Proof.
  induction l as [|x l IH]; [intros Hi; by apply elem_of_nil in Hi|].
  rewrite fmap_cons, elem_of_cons. intros Hi. simpl.
  destruct (decide (uid x = uid item)) as [Heq|Hne]; [done|].
  simpl. f_equal. apply IH. destruct Hi as [Hi|Hi]; [congruence | done].
Qed.

End Lookup.

Section CacheLookup.
Context {T : Type} `{!StoreEntity T} `{!Inhabited T}.

Implicit Types (s : Store T) (item val o : ObjRef) (i : JsId).

Lemma getCached_replaceOrAdd_find item s i :
  getCached i (replaceOrAdd item s) =
    if decide (uniqueId_of s item = i) then Some item else getCached i s.
Proof.
  unfold getCached.
  rewrite (uniqueId_of_objs _ s (objs_replaceOrAdd item s)).
  rewrite items_replaceOrAdd. apply find_upsert.
Qed.

Lemma getCached_remove_find val s i :
  getCached i (remove val s) =
    if decide (i = uniqueId_of s val) then None else getCached i s.
Proof.
  unfold getCached.
  rewrite (uniqueId_of_objs (remove val s) s) by done.
  rewrite items_remove. apply find_filter_ne.
Qed.

End CacheLookup.

(** X1: after [remove(val)] no cached entity is found under the
    identifier of [val], every other identifier is looked up as before,
    and when no cached entity has that identifier the contents of the
    cache are what they were. *)
Theorem remove_then_getCached
    {T : Type} `{!StoreEntity T} `{!Inhabited T}
    (val : ObjRef) (s : Store T) :
  getCached (uniqueId_of s val) (remove val s) = None ∧
  (∀ i, i ≠ uniqueId_of s val →
        getCached i (remove val s) = getCached i s) ∧
  ((∀ y, y ∈ items s → uniqueId_of s y ≠ uniqueId_of s val) →
   items (remove val s) = items s).
Proof.
  split_and!.
  - rewrite getCached_remove_find. by rewrite decide_True.
  - intros i Hi. rewrite getCached_remove_find. by rewrite decide_False.
  - intros Habsent. rewrite items_remove. by apply filter_ne_absent.
Qed.

Lemma remove_then_getCached_witness :
  items (remove 2%nat Sample.st_a) = items Sample.st_a.
Proof.
  apply (proj2 (proj2 (remove_then_getCached 2%nat Sample.st_a))).
  intros y Hy. vm_compute in Hy.
  apply list_elem_of_singleton in Hy as ->. vm_compute. discriminate.
Defined.

(** X2: after [replaceOrAdd(item)] the identifier of [item] is looked up
    as [item] itself, and every other identifier as before. *)
Theorem getCached_after_replaceOrAdd
    {T : Type} `{!StoreEntity T} `{!Inhabited T}
    (item : ObjRef) (s : Store T) :
  getCached (uniqueId_of s item) (replaceOrAdd item s) = Some item ∧
  (∀ i, i ≠ uniqueId_of s item →
        getCached i (replaceOrAdd item s) = getCached i s).
Proof.
  split.
  - rewrite getCached_replaceOrAdd_find. by rewrite decide_True.
  - intros i Hi. rewrite getCached_replaceOrAdd_find.
    by rewrite decide_False.
Qed.

Lemma getCached_after_replaceOrAdd_witness :
  getCached (JsNum 2) (replaceOrAdd 1%nat Sample.st_ab)
    = getCached (JsNum 2) Sample.st_ab.
Proof.
  apply (proj2 (getCached_after_replaceOrAdd 1%nat Sample.st_ab)).
  vm_compute. discriminate.
Defined.

(** X3: [replaceOrAdd] of the same item twice leaves the cache as one
    call does; the number of cached entities stays when the identifier
    is cached and grows by one when it is not. *)
Theorem replaceOrAdd_twice_and_length
    {T : Type} `{!StoreEntity T} `{!Inhabited T}
    (item : ObjRef) (s : Store T) :
  items (replaceOrAdd item (replaceOrAdd item s))
    = items (replaceOrAdd item s) ∧
  (uniqueId_of s item ∈ cached_ids s →
   length (items (replaceOrAdd item s)) = length (items s)) ∧
  (uniqueId_of s item ∉ cached_ids s →
   length (items (replaceOrAdd item s)) = S (length (items s))).
Proof.
  split_and!.
  - rewrite (items_replaceOrAdd item (replaceOrAdd item s)).
    rewrite (uniqueId_of_objs _ s (objs_replaceOrAdd item s)).
    rewrite items_replaceOrAdd. apply upsert_idempotent.
  - intros Hin. rewrite items_replaceOrAdd. by apply upsert_length_present.
  - intros Hnotin. rewrite items_replaceOrAdd, upsert_absent.
    + rewrite length_app. simpl. lia.
    + intros y Hy Heq. apply Hnotin. unfold cached_ids.
      rewrite <- Heq. by apply list_elem_of_fmap_2.
Qed.

Lemma replaceOrAdd_twice_and_length_witness :
  length (items (replaceOrAdd 1%nat Sample.st_ab))
    = length (items Sample.st_ab) ∧
  length (items (replaceOrAdd 2%nat Sample.st_a))
    = S (length (items Sample.st_a)).
Proof.
  split.
  - apply (proj1 (proj2 (replaceOrAdd_twice_and_length 1%nat Sample.st_ab))).
    vm_compute. left.
  - apply (proj2 (proj2 (replaceOrAdd_twice_and_length 2%nat Sample.st_a))).
    vm_compute. intros Hin. apply list_elem_of_singleton in Hin. discriminate.
Defined.

Section Emission.
Context {T : Type} `{!StoreEntity T} `{!Inhabited T}.

Implicit Types (s : Store T) (item val : ObjRef).

(** Each [replaceOrAdd] emits one new cache array. *)
Lemma replaceOrAdd_emits item s :
  emitted (replaceOrAdd item s) =
    emitted s ++ [ItemsNext (itemsSubject (replaceOrAdd item s))].
Proof. unfold replaceOrAdd. by case_match. Qed.

(** The array emitted by [replaceOrAdd] is not the one that was current. *)
Lemma replaceOrAdd_new_array item s :
  itemsSubject (replaceOrAdd item s) ≠ itemsSubject s.
Proof.
  unfold replaceOrAdd. case_match; simpl; intros Heq.
  - set (h := <[itemsSubject s := _]> (arrays s)) in Heq.
    apply (is_fresh (dom h)). rewrite Heq. unfold h.
    apply elem_of_dom. rewrite lookup_insert_eq. by eexists.
  - set (h := <[itemsSubject s := _]> (arrays s)) in Heq.
    apply (is_fresh (dom h)). rewrite Heq. unfold h.
    apply elem_of_dom. rewrite lookup_insert_eq. by eexists.
Qed.

End Emission.

(** X4: in a cache without repeated identifiers, [replaceOrAdd] of an
    entity object that is already cached leaves the contents of the
    cache as they are; a new array with these contents is emitted all
    the same. *)
Theorem replaceOrAdd_cached_object
    {T : Type} `{!StoreEntity T} `{!Inhabited T}
    (item : ObjRef) (s : Store T) :
  unique_cache s → item ∈ items s →
  items (replaceOrAdd item s) = items s ∧
  itemsSubject (replaceOrAdd item s) ≠ itemsSubject s ∧
  emitted (replaceOrAdd item s) =
    emitted s ++ [ItemsNext (itemsSubject (replaceOrAdd item s))].
Proof.
  intros Hu Hin. split_and!.
  - rewrite items_replaceOrAdd. by apply upsert_member.
  - apply replaceOrAdd_new_array.
  - apply replaceOrAdd_emits.
Qed.

Lemma replaceOrAdd_cached_object_witness :
  items (replaceOrAdd 2%nat Sample.st_ab) = items Sample.st_ab.
Proof.
  apply (replaceOrAdd_cached_object 2%nat Sample.st_ab).
  - vm_compute. apply NoDup_cons. split.
    + intros Hin. apply list_elem_of_singleton in Hin. discriminate.
    + apply NoDup_singleton.
  - vm_compute. right. left.
Defined.

(** X5: [getCached(id)] finds nothing exactly when no cached entity has
    the identifier; what it finds is cached and has the identifier; and
    in a cache without repeated identifiers every cached entity is found
    under its own identifier. *)
Theorem getCached_finds_by_identifier
    {T : Type} `{!StoreEntity T} `{!Inhabited T} (s : Store T) :
  (∀ i, getCached i s = None ↔ i ∉ cached_ids s) ∧
  (∀ i o, getCached i s = Some o → o ∈ items s ∧ uniqueId_of s o = i) ∧
  (unique_cache s →
   ∀ o, o ∈ items s → getCached (uniqueId_of s o) s = Some o).
Proof.
  split_and!.
  - intros i. apply find_id_None.
  - intros i o. apply find_id_Some.
  - intros Hu o Ho. by apply find_id_unique.
Qed.

Lemma getCached_finds_by_identifier_witness :
  getCached (uniqueId_of Sample.st_ab 2%nat) Sample.st_ab = Some 2%nat.
Proof.
  apply (proj2 (proj2 (getCached_finds_by_identifier Sample.st_ab))).
  - vm_compute. apply NoDup_cons. split.
    + intros Hin. apply list_elem_of_singleton in Hin. discriminate.
    + apply NoDup_singleton.
  - vm_compute. right. left.
Defined.

(** With a repeated identifier only the first entity is found. *)
Example getCached_first_of_repeated :
  getCached (JsNum 1)
    (respond (load "" "" 0 0 false true Sample.st_a) (Success [1%nat]))
    = Some 0%nat.
Proof. vm_compute. reflexivity. Qed.

(** X6: [findCached(predicate)] returns the first cached entity that
    satisfies the predicate: the result is cached and satisfies it, no
    entity before it does, and there is no result exactly when no cached
    entity satisfies it.  [getCached(id)] is [findCached] for the
    predicate "has identifier [id]". *)
Theorem findCached_first_match
    {T : Type} `{!StoreEntity T} `{!Inhabited T}
    (predicate : T → bool) (s : Store T) :
  (findCached predicate s = None ↔
   ∀ o, o ∈ items s → predicate (objs s !!! o) = false) ∧
  (∀ o, findCached predicate s = Some o →
        ∃ n, items s !! n = Some o ∧ predicate (objs s !!! o) = true ∧
             ∀ j y, (j < n)%nat → items s !! j = Some y →
                    predicate (objs s !!! y) = false) ∧
  (∀ i, getCached i s = findCached (λ t, strict_eq (uniqueId t) i) s).
Proof.
  unfold findCached. split_and!.
  - induction (items s) as [|x l IH]; simpl.
    + split; [intros _ o Ho; by apply elem_of_nil in Ho | done].
    + destruct (predicate (objs s !!! x)) eqn:Hx.
      * split; [done|]. intros Hall.
        rewrite Hall in Hx; [done | left].
      * rewrite IH. split.
        -- intros Hall o [->|Ho]%elem_of_cons; [done | by apply Hall].
        -- intros Hall o Ho. apply Hall. by right.
  - induction (items s) as [|x l IH]; simpl; [done|].
    intros o. destruct (predicate (objs s !!! x)) eqn:Hx.
    + intros [= <-]. exists 0%nat. split_and!; [done | done |].
      intros j y Hj. lia.
    + intros (n & Hn & Hp & Hbefore)%IH.
      exists (S n). split_and!; [done | done |].
      intros [|j] y Hj Hy; simplify_eq/=; [done|].
      apply (Hbefore j); [lia | done].
  - done.
Qed.

(** ** What the subscriptions do *)

(** X7: [delete(val)] issues DELETE for the identifier [val] has at the
    call.  On success the subscription removes every cached entity that
    has the identifier of [val] (as it is when the response arrives),
    emits the new cache and then delete-success with [val] itself, and
    lowers the deleting flag; the selection is not touched. *)
Theorem delete_success_removes
    {T : Type} `{!StoreEntity T} `{!Inhabited T}
    (val : ObjRef) (s : Store T) :
  ∃ k,
    delete val s =
      Await (HttpDelete (url (settings s) +:+ to_string (uniqueId_of s val)))
            (set_deleting true s) k ∧
    ∀ (r : unit) s2,
      let s3 := k (Success r) s2 in
      items s3 =
        filter (λ o, uniqueId_of s2 o ≠ uniqueId_of s2 val) (items s2) ∧
      getCached (uniqueId_of s2 val) s3 = None ∧
      deletingSubject s3 = false ∧
      selectedSubject s3 = selectedSubject s2 ∧
      emitted s3 =
        emitted s2 ++ [ItemsNext (itemsSubject s3);
                       DeleteSuccessNext val; DeletingNext false].
Proof.
  eexists. split; [reflexivity|].
  intros r s2. simpl. split_and!; try done.
  - apply (items_remove val s2).
  - change (getCached (uniqueId_of s2 val) (remove val s2) = None).
    rewrite getCached_remove_find. by rewrite decide_True.
  - by rewrite <- !app_assoc.
Qed.

(** X8: a failed [load] delivers the transport error once on the
    load-error stream and nothing on the stream of get, create and
    update errors or on the no-results stream; the cache and every array
    stay as they are, and the loading flag is lowered. *)
Theorem load_failure_leaves_cache
    {T : Type} `{!StoreEntity T} `{!Inhabited T}
    (filter order : string) (page pageSize : Z) (useCache append : bool)
    (s : Store T) req s1 k :
  load filter order page pageSize useCache append s = Await req s1 k →
  ∀ e s2,
    let s3 := k (Failure e) s2 in
    items s3 = items s2 ∧
    arrays s3 = arrays s2 ∧
    itemsSubject s3 = itemsSubject s2 ∧
    selectedSubject s3 = selectedSubject s2 ∧
    loadingSubject s3 = false ∧
    emitted s3 =
      emitted s2 ++ [LoadErrorNext e;
                     Unhandled ("Error loading " +:+ itemName (settings s2)
                                +:+ "s");
                     LoadingNext false] ∧
    loadError_events (emitted s3) = loadError_events (emitted s2) ++ [e] ∧
    getError_events (emitted s3) = getError_events (emitted s2) ∧
    noLoadResults_count (emitted s3) = noLoadResults_count (emitted s2).
Proof.
  unfold load. case_match; [done|]. intros [= _ _ <-] e s2. simpl.
  split_and!; try done.
  - by rewrite <- !app_assoc.
  - unfold loadError_events. by rewrite !omap_app, <- !app_assoc.
  - unfold getError_events. rewrite !omap_app. simpl.
    by rewrite !app_nil_r.
  - unfold noLoadResults_count. rewrite !omap_app. simpl.
    by rewrite !app_nil_r.
Qed.

Lemma load_failure_leaves_cache_witness :
  items (respond (load "" "" 0 0 false false Sample.st_ab)
                 (Failure Sample.err))
    = items (returned (load "" "" 0 0 false false Sample.st_ab)).
Proof.
  exact (proj1 (load_failure_leaves_cache "" "" 0 0 false false Sample.st_ab
                  _ _ _ eq_refl Sample.err _)).
Defined.

(** X9: [get(id)] with an identifier other than [null] issues GET for
    it.  On success the entity received is merged into the cache and a
    copy of it becomes the selection, whatever identifier it has; it is
    then found under its identifier.  On failure the cache and the
    selection stay and the error is delivered on the get-error stream. *)
Theorem get_merges_and_selects
    {T : Type} `{!StoreEntity T} `{!Inhabited T}
    (i : JsId) (s : Store T) :
  i ≠ JsNull →
  ∃ k,
    get i s = Await (HttpGet (url (settings s) +:+ to_string i))
                    (set_loading true s) k ∧
    (∀ res s2,
       let s3 := k (Success res) s2 in
       items s3 = upsert (uniqueId_of s2) res (items s2) ∧
       getCached (uniqueId_of s2 res) s3 = Some res ∧
       selectedSubject s3 = Some (objs s2 !!! res) ∧
       emitted s3 =
         emitted s2 ++ [ItemsNext (itemsSubject s3);
                        SelectedNext (Some (objs s2 !!! res));
                        LoadingNext false]) ∧
    (∀ e s2,
       let s3 := k (Failure e) s2 in
       items s3 = items s2 ∧
       arrays s3 = arrays s2 ∧
       selectedSubject s3 = selectedSubject s2 ∧
       emitted s3 =
         emitted s2 ++ [GetErrorNext e;
                        Unhandled ("Error loading " +:+ itemName (settings s2));
                        LoadingNext false]).
Proof.
  intros Hi%strict_eq_false. unfold get. rewrite Hi.
  eexists. split; [reflexivity|]. split.
  - intros res s2. cbn zeta. unfold subscribe.
    assert (objs (replaceOrAdd res s2) = objs s2) as Hobjs
      by apply objs_replaceOrAdd.
    split_and!.
    + rewrite items_set_loading, items_set_selected.
      apply items_replaceOrAdd.
    + change (getCached (uniqueId_of s2 res) (replaceOrAdd res s2) = Some res).
      rewrite getCached_replaceOrAdd_find. by rewrite decide_True.
    + simpl. by rewrite Hobjs.
    + simpl. rewrite Hobjs, replaceOrAdd_emits. by rewrite <- !app_assoc.
  - intros e s2. simpl. split_and!; try done.
    by rewrite <- !app_assoc.
Qed.

Lemma get_merges_and_selects_witness :
  ∃ k, get (JsNum 1) Sample.st_ab
       = Await (HttpGet (url (settings Sample.st_ab) +:+ to_string (JsNum 1)))
               (set_loading true Sample.st_ab) k.
Proof.
  destruct (get_merges_and_selects (JsNum 1) Sample.st_ab ltac:(discriminate))
    as (k & Hk & _).
  exists k. exact Hk.
Defined.

Example get_selects_copy :
  selectedSubject (respond (get (JsNum 1) Sample.st_ab) (Success 1%nat))
    = Some Sample.todo_a2 ∧
  items (respond (get (JsNum 1) Sample.st_ab) (Success 1%nat)) = [1; 2]%nat.
Proof. vm_compute. done. Qed.

(** X10: [add(val)] posts [val] and [update(val)] puts [val] at the
    identifier it has at the call.  On success each merges the entity
    received, not [val], into the cache, then emits create-success
    (update-success) carrying the entity received, then lowers the
    loading flag; on failure the cache stays and the error goes to the
    stream shared with get. *)
Theorem add_update_merge_response
    {T : Type} `{!StoreEntity T} `{!Inhabited T}
    (val : ObjRef) (s : Store T) :
  (∃ k,
     add val s = Await (HttpPost (url (settings s)) val)
                       (set_loading true s) k ∧
     (∀ res s2,
        let s3 := k (Success res) s2 in
        items s3 = upsert (uniqueId_of s2) res (items s2) ∧
        getCached (uniqueId_of s2 res) s3 = Some res ∧
        emitted s3 =
          emitted s2 ++ [ItemsNext (itemsSubject s3);
                         CreateSuccessNext res; LoadingNext false]) ∧
     (∀ e s2,
        let s3 := k (Failure e) s2 in
        items s3 = items s2 ∧ arrays s3 = arrays s2 ∧
        emitted s3 =
          emitted s2 ++ [GetErrorNext e;
                         Unhandled ("Error creating "
                                    +:+ itemName (settings s2));
                         LoadingNext false])) ∧
  (∃ k,
     update val s =
       Await (HttpPut (url (settings s) +:+ to_string (uniqueId_of s val)) val)
             (set_loading true s) k ∧
     (∀ res s2,
        let s3 := k (Success res) s2 in
        items s3 = upsert (uniqueId_of s2) res (items s2) ∧
        getCached (uniqueId_of s2 res) s3 = Some res ∧
        emitted s3 =
          emitted s2 ++ [ItemsNext (itemsSubject s3);
                         UpdateSuccessNext res; LoadingNext false]) ∧
     (∀ e s2,
        let s3 := k (Failure e) s2 in
        items s3 = items s2 ∧ arrays s3 = arrays s2 ∧
        emitted s3 =
          emitted s2 ++ [GetErrorNext e;
                         Unhandled ("Error updating "
                                    +:+ itemName (settings s2));
                         LoadingNext false])).
Proof.
  split.
  - eexists. split; [reflexivity|]. split.
    + intros res s2. cbn zeta. unfold subscribe. split_and!.
      * rewrite items_set_loading, items_emit. apply items_replaceOrAdd.
      * change (getCached (uniqueId_of s2 res) (replaceOrAdd res s2)
                = Some res).
        rewrite getCached_replaceOrAdd_find. by rewrite decide_True.
      * simpl. rewrite replaceOrAdd_emits. by rewrite <- !app_assoc.
    + intros e s2. simpl. split_and!; try done. by rewrite <- !app_assoc.
  - eexists. split; [reflexivity|]. split.
    + intros res s2. cbn zeta. unfold subscribe. split_and!.
      * rewrite items_set_loading, items_emit. apply items_replaceOrAdd.
      * change (getCached (uniqueId_of s2 res) (replaceOrAdd res s2)
                = Some res).
        rewrite getCached_replaceOrAdd_find. by rewrite decide_True.
      * simpl. rewrite replaceOrAdd_emits. by rewrite <- !app_assoc.
    + intros e s2. simpl. split_and!; try done. by rewrite <- !app_assoc.
Qed.

(** The entity posted is not cached unless the response is that object. *)
Example add_caches_response_only :
  items (respond (add 3%nat Sample.st0) (Success 2%nat)) = [2%nat] ∧
  items (returned (add 3%nat Sample.st0)) = [].
Proof. vm_compute. done. Qed.

(** X11: no operation changes the cache, an array, an entity or the
    selection before its response arrives: when [load], [get] with an
    identifier other than [null], [add], [update] or [delete] returns to
    its caller only the in-flight flag has been raised. *)
Theorem nothing_cached_before_response
    {T : Type} `{!StoreEntity T} `{!Inhabited T} (s : Store T) :
  (∀ filter order page pageSize useCache append,
     returned (load filter order page pageSize useCache append s) = s ∨
     returned (load filter order page pageSize useCache append s)
       = set_loading true s) ∧
  (∀ i, i ≠ JsNull → returned (get i s) = set_loading true s) ∧
  (∀ val, returned (add val s) = set_loading true s) ∧
  (∀ val, returned (update val s) = set_loading true s) ∧
  (∀ val, returned (delete val s) = set_deleting true s) ∧
  (∀ b, items (set_loading b s) = items s ∧
        arrays (set_loading b s) = arrays s ∧
        objs (set_loading b s) = objs s ∧
        selectedSubject (set_loading b s) = selectedSubject s ∧
        items (set_deleting b s) = items s ∧
        arrays (set_deleting b s) = arrays s ∧
        objs (set_deleting b s) = objs s ∧
        selectedSubject (set_deleting b s) = selectedSubject s).
Proof.
  split_and!; try done.
  - intros *. unfold load. case_match; [by left | by right].
  - intros i Hi%strict_eq_false. unfold get. by rewrite Hi.
Qed.

Lemma nothing_cached_before_response_witness :
  returned (get (JsStr "x") Sample.st_ab) = set_loading true Sample.st_ab.
Proof.
  apply (proj1 (proj2 (nothing_cached_before_response Sample.st_ab))).
  discriminate.
Defined.

(** ** load: when it asks, and what responses do to the cache *)

Section LoadFacts.
Context {T : Type} `{!StoreEntity T} `{!Inhabited T}.

Implicit Types (s : Store T) (res : list ObjRef).

Lemma load_request_None filter order page pageSize useCache append s :
  request_of (load filter order page pageSize useCache append s) = None
  ↔ useCache = true ∧ items s ≠ [].
Proof.
  unfold load. destruct useCache; simpl.
  - destruct (items s); simpl; [split; [done | intros [_ ?]; done]|].
    split; [done | done].
  - split; [done | intros [? _]; done].
Qed.

(** The subscription of a [load], whatever the call was made on. *)
Lemma load_subscription filter order page pageSize useCache append
    s req s1 k :
  load filter order page pageSize useCache append s = Await req s1 k →
  s1 = set_loading true s ∧
  ∀ res s2,
    items (k (Success res) s2) = loaded append s2 res ∧
    emitted (k (Success res) s2) =
      emitted s2 ++ [ItemsNext (itemsSubject (k (Success res) s2))]
        ++ (if (length res =? 0)%nat then [NoLoadResultsNext] else [])
        ++ [LoadingNext false].
Proof.
  unfold load. case_match; [done|]. intros [= _ <- <-].
  split; [done|]. intros res s2. unfold subscribe, loaded.
  destruct (length res =? 0)%nat, append;
    rewrite items_set_loading, ?items_emit, items_set_items;
    (split; [done|]); simpl; by rewrite <- ?app_assoc.
Qed.

End LoadFacts.



Example load_twice_in_flight_sample :
  request_of (load "" "" 0 0 true true
                (returned (load "" "" 0 0 true true Sample.st0)))
    = request_of (load "" "" 0 0 true true Sample.st0) ∧
  request_of (load "" "" 0 0 true true Sample.st0)
    = Some (HttpGet "/api/todo?filter=&order=&page=0&pageSize=0").
Proof. vm_compute. done. Qed.

(** X13: responses are applied in the order they arrive.  Of two
    [load] calls without append, made one after the other, the response
    that arrives last determines the cache, also when it belongs to the
    call made first. *)
Theorem load_last_arrival_wins
    {T : Type} `{!StoreEntity T} `{!Inhabited T}
    (f1 o1 f2 o2 : string) (p1 n1 p2 n2 : Z) (u1 u2 : bool)
    (s : Store T) req1 s1 k1 req2 s2 k2 :
  load f1 o1 p1 n1 u1 false s = Await req1 s1 k1 →
  load f2 o2 p2 n2 u2 false s1 = Await req2 s2 k2 →
  ∀ resA resB,
    items (k1 (Success resA) (k2 (Success resB) s2)) = resA ∧
    items (k2 (Success resB) (k1 (Success resA) s2)) = resB.
Proof.
  intros H1 H2 resA resB.
  destruct (load_subscription _ _ _ _ _ _ _ _ _ _ H1) as [_ Hk1].
  destruct (load_subscription _ _ _ _ _ _ _ _ _ _ H2) as [_ Hk2].
  split.
  - by destruct (Hk1 resA (k2 (Success resB) s2)) as [-> _].
  - by destruct (Hk2 resB (k1 (Success resA) s2)) as [-> _].
Qed.

Lemma load_last_arrival_wins_witness :
  ∃ req1 s1 k1 req2 s2 k2,
    load "a" "" 0 0 false false Sample.st0 = Await req1 s1 k1 ∧
    load "b" "" 0 0 false false s1 = Await req2 s2 k2 ∧
    items (k1 (Success [0%nat]) (k2 (Success [2%nat]) s2)) = [0%nat].
Proof.
  eexists _, _, _, _, _, _.
  split; [reflexivity|]. split; [reflexivity|].
  exact (proj1 (load_last_arrival_wins "a" "" "b" "" 0 0 0 0 false false
                  Sample.st0 _ _ _ _ _ _ eq_refl eq_refl [0%nat] [2%nat])).
Defined.

(** X14: a successful [load] emits the new cache once and delivers the
    no-results event exactly when the response is empty, with and
    without append; an empty response with [append = true] leaves the
    contents of the cache as they are. *)
Theorem load_no_results_iff_empty
    {T : Type} `{!StoreEntity T} `{!Inhabited T}
    (filter order : string) (page pageSize : Z) (useCache append : bool)
    (s : Store T) req s1 k :
  load filter order page pageSize useCache append s = Await req s1 k →
  ∀ res s2,
    let s3 := k (Success res) s2 in
    (res = [] →
     emitted s3 = emitted s2 ++ [ItemsNext (itemsSubject s3);
                                 NoLoadResultsNext; LoadingNext false] ∧
     items s3 = if append then items s2 else []) ∧
    (res ≠ [] →
     emitted s3 = emitted s2 ++ [ItemsNext (itemsSubject s3);
                                 LoadingNext false]) ∧
    noLoadResults_count (emitted s3) =
      (noLoadResults_count (emitted s2)
       + if decide (res = []) then 1 else 0)%nat.
Proof.
  intros Hload res s2 s3.
  destruct (load_subscription _ _ _ _ _ _ _ _ _ _ Hload) as [_ Hk].
  destruct (Hk res s2) as [Hitems Hemitted]. fold s3 in Hitems, Hemitted.
  split_and!.
  - intros ->. split; [by rewrite Hemitted|].
    rewrite Hitems. unfold loaded. destruct append; [apply app_nil_r|done].
  - intros Hne. rewrite Hemitted. by destruct res.
  - rewrite Hemitted. unfold noLoadResults_count.
    rewrite !omap_app, !length_app. case_decide as Hres.
    + subst res. simpl. lia.
    + destruct res; [done|]. simpl. lia.
Qed.

Lemma load_no_results_iff_empty_witness :
  noLoadResults_count
    (emitted (respond (load "" "" 0 0 false true Sample.st_a)
                      (Success [2%nat]))) =
  (noLoadResults_count
     (emitted (returned (load "" "" 0 0 false true Sample.st_a)))
   + if decide ([2%nat] = []) then 1 else 0)%nat.
Proof.
  exact (proj2 (proj2 (load_no_results_iff_empty "" "" 0 0 false true
                         Sample.st_a _ _ _ eq_refl [2%nat] _))).
Defined.

(** ** Arrays that observers hold *)

(** X15: the paths that assign a newly built array to the cache never
    write into an array that exists: after [remove], [clearCached], the
    subscription of [load] and the subscription of [delete], on success
    and on failure, every array has the contents it had. *)
Theorem new_array_paths_keep_arrays
    {T : Type} `{!StoreEntity T} `{!Inhabited T}
    (s : Store T) (a : ArrRef) (l : list ObjRef) :
  arrays s !! a = Some l →
  (∀ val, arrays (remove val s) !! a = Some l) ∧
  arrays (clearCached s) !! a = Some l ∧
  (∀ filter order page pageSize useCache append s0 req s1 k r,
     load filter order page pageSize useCache append s0 = Await req s1 k →
     arrays (k r s) !! a = Some l) ∧
  (∀ val s0 req s1 k r,
     delete val s0 = Await req s1 k → arrays (k r s) !! a = Some l).
Proof.
  intros Ha. split_and!.
  - intros val. by apply remove_keeps_arrays.
  - by apply clearCached_keeps_arrays.
  - intros filter order page pageSize useCache append s0 req s1 k r Hload.
    by apply (load_keeps_arrays _ _ _ _ _ _ _ _ _ _ _ _ _ _ Hload).
  - intros val s0 req s1 k r [= _ _ <-].
    destruct r as [u|e]; [|done].
    change (arrays (remove val s) !! a = Some l).
    by apply remove_keeps_arrays.
Qed.

Lemma new_array_paths_keep_arrays_witness :
  arrays (clearCached Sample.st_a) !! 1%nat = Some [0%nat].
Proof.
  apply (new_array_paths_keep_arrays Sample.st_a 1%nat [0%nat]).
  vm_compute. reflexivity.
Defined.

(** X16: [replaceOrAdd] leaves two arrays with the merged contents: the
    array that was current at the call, written in place, and the new
    current array, a different one; every other array is untouched. *)
Theorem replaceOrAdd_writes_current_array
    {T : Type} `{!StoreEntity T} `{!Inhabited T}
    (item : ObjRef) (s : Store T) :
  arrays (replaceOrAdd item s) !! itemsSubject s
    = Some (items (replaceOrAdd item s)) ∧
  arrays (replaceOrAdd item s) !! itemsSubject (replaceOrAdd item s)
    = Some (items (replaceOrAdd item s)) ∧
  itemsSubject (replaceOrAdd item s) ≠ itemsSubject s ∧
  (∀ a l, a ≠ itemsSubject s → arrays s !! a = Some l →
          arrays (replaceOrAdd item s) !! a = Some l).
Proof.
  split_and!.
  - rewrite items_replaceOrAdd. apply replaceOrAdd_current_array.
  - unfold replaceOrAdd.
    case_match; rewrite items_set_items; simpl; by rewrite lookup_insert_eq.
  - apply replaceOrAdd_new_array.
  - intros a l. apply replaceOrAdd_other_arrays.
Qed.

Lemma replaceOrAdd_writes_current_array_witness :
  arrays (replaceOrAdd 2%nat Sample.st_a) !! 0%nat = Some [0%nat].
Proof.
  apply (proj2 (proj2 (proj2
    (replaceOrAdd_writes_current_array 2%nat Sample.st_a)))).
  - vm_compute. discriminate.
  - vm_compute. reflexivity.
Defined.

(** X17: [clearCached] empties the cache: nothing is found under any
    identifier, uniqueness holds, and a following [load] with
    [useCache = true] issues a request again. *)
Theorem clearCached_empties
    {T : Type} `{!StoreEntity T} `{!Inhabited T} (s : Store T) :
  items (clearCached s) = [] ∧
  (∀ i, getCached i (clearCached s) = None) ∧
  (∀ predicate, findCached predicate (clearCached s) = None) ∧
  emitted (clearCached s)
    = emitted s ++ [ItemsNext (itemsSubject (clearCached s))] ∧
  (∀ filter order page pageSize append,
     request_of (load filter order page pageSize true append (clearCached s))
       ≠ None).
Proof.
  assert (items (clearCached s) = []) as Hitems by apply items_set_items.
  split_and!.
  - exact Hitems.
  - intros i. unfold getCached. by rewrite Hitems.
  - intros predicate. unfold findCached. by rewrite Hitems.
  - done.
  - intros *. rewrite load_request_None. intros [_ Hne]. by apply Hne.
Qed.

(** * Further properties of TodoService *)

Section TodoServiceFacts.

Implicit Types (ts : TodoService) (todo o x : ObjRef).


(** The identifiers of the entities other than [todo], as [addTodo]
    leaves them. *)
Lemma cached_ids_addTodo_others todo ts (l : list ObjRef) :
  todo ∉ l →
  uniqueId_of (store (addTodo todo ts)) <$> l = uniqueId_of (store ts) <$> l.
Proof.
  intros Hnotin. apply list_fmap_ext. intros j y Hy.
  apply uniqueId_of_addTodo_ne. intros ->.
  apply Hnotin. by eapply list_elem_of_lookup_2.
Qed.


Lemma addTodo_all_cons todo todos ts :
  addTodo_all (todo :: todos) ts = addTodo_all todos (addTodo todo ts).
Proof. done. Qed.

Lemma uniqueId_of_addTodo_all_others todos ts o :
  o ∉ todos →
  uniqueId_of (store (addTodo_all todos ts)) o = uniqueId_of (store ts) o.
Proof.
  revert ts. induction todos as [|t todos IH]; intros ts Ho; [done|].
  apply not_elem_of_cons in Ho as [Hne Ho].
  rewrite addTodo_all_cons, IH by done.
  by apply uniqueId_of_addTodo_ne.
Qed.

End TodoServiceFacts.



Example addTodo_all_sample :
  cached_ids (store (addTodo_all [3; 4; 0]%nat Sample.fresh_service))
    = [JsNum 2; JsNum 3; JsNum 4].
Proof. vm_compute. reflexivity. Qed.

(** X19: the identifier [addTodo] assigns is not checked against the
    cache.  When a cached entity, another object than [todo], already has
    the identifier [nextId + 1] (an entity loaded from the server, say),
    [addTodo] puts [todo] in its place: the cache keeps its length and
    the other entity is no longer cached. *)
Theorem addTodo_identifier_taken
    (todo x : ObjRef) (n : nat) (ts : TodoService) :
  unique_cache (store ts) →
  todo ∉ items (store ts) →
  items (store ts) !! n = Some x →
  uniqueId_of (store ts) x = JsNum (nextId ts + 1) →
  items (store (addTodo todo ts)) = <[n := todo]> (items (store ts)) ∧
  length (items (store (addTodo todo ts))) = length (items (store ts)) ∧
  x ∉ items (store (addTodo todo ts)).
Proof.
  intros Hu Hnotin Hn Hx.
  assert (x ≠ todo) as Hne.
  { intros ->. apply Hnotin. by eapply list_elem_of_lookup_2. }
  assert (items (store (addTodo todo ts)) = <[n := todo]> (items (store ts)))
    as Hitems.
  { rewrite items_addTodo. apply (upsert_found _ _ n x); [done | |].
    - by rewrite uniqueId_of_addTodo_eq, uniqueId_of_addTodo_ne.
    - intros j y Hj Hy.
      assert (y ≠ todo) as Hy'.
      { intros ->. apply Hnotin. by eapply list_elem_of_lookup_2. }
      rewrite uniqueId_of_addTodo_eq, uniqueId_of_addTodo_ne, <- Hx by done.
      intros Heq. assert (j = n); [|lia].
      eapply (NoDup_lookup _ j n (uniqueId_of (store ts) y) Hu);
        rewrite list_lookup_fmap.
      + by rewrite Hy.
      + rewrite Hn. simpl. congruence. }
  split_and!.
  - exact Hitems.
  - rewrite Hitems. apply length_insert.
  - rewrite Hitems. intros (j & Hj)%list_elem_of_lookup_1.
    destruct (decide (j = n)) as [->|Hjn].
    + rewrite list_lookup_insert_eq in Hj by (by eapply lookup_lt_Some).
      congruence.
    + rewrite list_lookup_insert_ne in Hj by done.
      apply Hjn.
      eapply (NoDup_lookup _ j n (uniqueId_of (store ts) x) Hu);
        rewrite list_lookup_fmap.
      * by rewrite Hj.
      * by rewrite Hn.
Qed.

Lemma addTodo_identifier_taken_witness :
  items (store (addTodo 3%nat
                  {| store := Sample.st_ab; nextId := 1 |}))
    = <[1%nat := 3%nat]> (items Sample.st_ab).
Proof.
  apply (addTodo_identifier_taken 3%nat 2%nat 1%nat
           {| store := Sample.st_ab; nextId := 1 |}).
  - apply (bool_decide_unpack _). vm_compute. exact I.
  - apply (bool_decide_unpack _). vm_compute. exact I.
  - vm_compute. reflexivity.
  - vm_compute. reflexivity.
Defined.



(** X21: [updateTodo] is the merge and nothing else: an entity object
    that is cached (in a cache without repeated identifiers) leaves the
    contents as they are, an entity whose identifier is not cached is
    appended; either way the new cache and then update-success with the
    entity are emitted, and neither the identifier of any entity nor
    [nextId] changes. *)
Theorem updateTodo_merges_without_renumbering
    (todo : ObjRef) (ts : TodoService) :
  (unique_cache (store ts) → todo ∈ items (store ts) →
   items (store (updateTodo todo ts)) = items (store ts)) ∧
  ((∀ y, y ∈ items (store ts) →
         uniqueId_of (store ts) y ≠ uniqueId_of (store ts) todo) →
   items (store (updateTodo todo ts)) = items (store ts) ++ [todo]) ∧
  getCached (uniqueId_of (store ts) todo) (store (updateTodo todo ts))
    = Some todo ∧
  objs (store (updateTodo todo ts)) = objs (store ts) ∧
  nextId (updateTodo todo ts) = nextId ts ∧
  emitted (store (updateTodo todo ts)) =
    emitted (store ts)
      ++ [ItemsNext (itemsSubject (store (updateTodo todo ts)));
          UpdateSuccessNext todo].
Proof.
  assert (store (updateTodo todo ts)
          = emit (UpdateSuccessNext todo) (replaceOrAdd todo (store ts)))
    as Hst by done.
  split_and!.
  - intros Hu Hin. rewrite Hst, items_emit, items_replaceOrAdd.
    by apply upsert_member.
  - intros Habsent. rewrite Hst, items_emit. by apply replaceOrAdd_append.
  - rewrite Hst.
    change (getCached (uniqueId_of (store ts) todo)
              (replaceOrAdd todo (store ts)) = Some todo).
    rewrite getCached_replaceOrAdd_find. by rewrite decide_True.
  - rewrite Hst. apply objs_replaceOrAdd.
  - done.
  - rewrite Hst. simpl. rewrite replaceOrAdd_emits.
    by rewrite <- app_assoc.
Qed.

Lemma updateTodo_merges_without_renumbering_witness :
  items (store (updateTodo 2%nat {| store := Sample.st_a; nextId := 1 |}))
    = items Sample.st_a ++ [2%nat].
Proof.
  apply (proj1 (proj2 (updateTodo_merges_without_renumbering 2%nat
           {| store := Sample.st_a; nextId := 1 |}))).
  intros y Hy. vm_compute in Hy.
  apply list_elem_of_singleton in Hy as ->. vm_compute. discriminate.
Defined.

(** * The todo-list page *)

Section Page.

Implicit Types (c : TodoListComponent.state) (ts : TodoService)
               (todo o r : ObjRef).

Lemma resetNewTodo_unfold c :
  let st := store (TodoListComponent.todoService c) in
  let r' := fresh (dom (objs st)) in
  let n := (nextId (TodoListComponent.todoService c) + 1)%Z in
  TodoListComponent.resetNewTodo c =
    {| TodoListComponent.newTodo := Some r';
       TodoListComponent.todoService :=
         {| store := assign_id r' (JsNum n)
                       (with_objs (<[r' := new_Todo]> (objs st)) st);
            nextId := n |} |}.
Proof. done. Qed.

Lemma dom_objs_assign_id todo v (s : Store Todo) :
  dom (objs (assign_id todo v s)) = {[todo]} ∪ dom (objs s).
Proof. unfold assign_id. simpl. apply dom_insert_L. Qed.



(** [resetNewTodo] on a ready service leaves the page ready. *)
Lemma resetNewTodo_ready c :
  TodoListComponent.service_ready (TodoListComponent.todoService c) →
  TodoListComponent.ready (TodoListComponent.resetNewTodo c).
Proof.
  intros [Hdom Hissued]. rewrite resetNewTodo_unfold. cbn zeta.
  set (st := store (TodoListComponent.todoService c)) in *.
  set (r' := fresh (dom (objs st))).
  assert (r' ∉ items st) as Hfresh.
  { intros Hin%Hdom. by apply (is_fresh (dom (objs st))). }
  exists r'.
  cbn [TodoListComponent.newTodo TodoListComponent.todoService store nextId].
  split_and!.
  - done.
  - rewrite dom_objs_assign_id. apply elem_of_union. left.
    by apply elem_of_singleton.
  - exact Hfresh.
  - apply uniqueId_of_assign_id_eq.
  - intros o Ho. rewrite dom_objs_assign_id.
    apply elem_of_union. right.
    change (o ∈ dom (<[r' := new_Todo]> (objs st))).
    rewrite dom_insert_L. apply elem_of_union. right. by apply Hdom.
  - intros o Ho. change (o ∈ items st) in Ho.
    assert (o ≠ r') as Hne by (intros ->; done).
    cbn [store nextId].
    rewrite uniqueId_of_assign_id_ne by done.
    unfold uniqueId_of.
    change (objs (with_objs (<[r' := new_Todo]> (objs st)) st))
      with (<[r' := new_Todo]> (objs st)).
    rewrite lookup_total_insert_ne by done.
    destruct (Hissued o Ho) as (n & Hn & Hle).
    exists n. split; [exact Hn | lia].
Qed.


End Page.


Lemma page_ready_after_ngOnInit : TodoListComponent.ready Sample2.page0.
Proof.
  apply resetNewTodo_ready. split.
  - intros o Ho. vm_compute in Ho. by apply elem_of_nil in Ho.
  - intros o Ho. vm_compute in Ho. by apply elem_of_nil in Ho.
Defined.


(** The first two todos added through a new page get the identifiers
    3 and 5. *)
Example page_addTodo_sample :
  (λ c, cached_ids (store (TodoListComponent.todoService c)))
    <$> (TodoListComponent.addTodo true Sample2.page0
           ≫= TodoListComponent.addTodo true)
    = Some [JsNum 3; JsNum 5].
Proof. vm_compute. reflexivity. Qed.

(** X23: the life of the page.  A new service is ready; [ngOnInit] on a
    ready service makes the page ready; before [ngOnInit] a valid
    [addTodo] fails, as there is no entity to number; [addTodo] with an
    invalid form changes nothing; [completeTodo] keeps the page ready,
    leaves the entity being edited and [nextId] alone and removes the
    identifier of the completed entity from the cache. *)
Theorem page_lifecycle :
  (∀ apiUrl heap,
     TodoListComponent.service_ready (new_TodoService apiUrl heap)) ∧
  (∀ ts, TodoListComponent.service_ready ts →
         TodoListComponent.ready
           (TodoListComponent.ngOnInit (TodoListComponent.constructor ts))) ∧
  (∀ ts, TodoListComponent.addTodo true (TodoListComponent.constructor ts)
         = None) ∧
  (∀ c, TodoListComponent.addTodo false c = Some c) ∧
  (∀ c todo,
     TodoListComponent.ready c →
     TodoListComponent.ready (TodoListComponent.completeTodo todo c) ∧
     TodoListComponent.newTodo (TodoListComponent.completeTodo todo c)
       = TodoListComponent.newTodo c ∧
     nextId (TodoListComponent.todoService
               (TodoListComponent.completeTodo todo c))
       = nextId (TodoListComponent.todoService c) ∧
     getCached
       (uniqueId_of (store (TodoListComponent.todoService c)) todo)
       (store (TodoListComponent.todoService
                 (TodoListComponent.completeTodo todo c)))
       = None).
Proof.
  split_and!.
  - intros apiUrl heap. split; intros o Ho; by apply elem_of_nil in Ho.
  - intros ts Hts. by apply resetNewTodo_ready.
  - done.
  - done.
  - intros c todo (r & Hnew & Hr & Hnotin & Hid & Hdom & Hissued).
    set (ts := TodoListComponent.todoService c) in *.
    assert (store (TodoListComponent.todoService
                     (TodoListComponent.completeTodo todo c))
            = remove todo (store ts)) as Hst by done.
    assert (∀ o, o ∈ items (remove todo (store ts)) → o ∈ items (store ts))
      as Hsub.
    { intros o. rewrite items_remove.
      by intros [_ Ho]%list_elem_of_filter. }
    split_and!.
    + exists r. rewrite Hst. split_and!.
      * exact Hnew.
      * exact Hr.
      * intros Hin. by apply Hnotin, Hsub.
      * exact Hid.
      * intros o Ho. by apply Hdom, Hsub.
      * intros o Ho. by apply Hissued, Hsub.
    + done.
    + done.
    + rewrite Hst, getCached_remove_find. by rewrite decide_True.
Qed.

Lemma page_lifecycle_witness :
  TodoListComponent.ready
    (TodoListComponent.completeTodo 0%nat Sample2.page0).
Proof.
  exact (proj1 (proj2 (proj2 (proj2 (proj2 page_lifecycle)))
                  Sample2.page0 0%nat page_ready_after_ngOnInit)).
Defined.

(** * The selection *)

Section Selection.
Context {T : Type} `{!StoreEntity T} `{!Inhabited T}.

Implicit Types (s : Store T) (item val : ObjRef).


End Selection.



(** The entity deleted is still the selection, and no longer cached. *)
Example selection_outlives_delete :
  let s := respond (delete 0%nat (select (Some 0%nat) Sample.st_ab))
                   (Success ()) in
  selectedSubject s = Some Sample.todo_a ∧ getCached (JsNum 1) s = None.
Proof. vm_compute. done. Qed.

(** * Uniqueness under the local operations of TodoService *)

(** X25: [updateTodo] and [completeTodo] keep the identifiers of the
    cache free of repetitions, and so does [addTodo] of an entity that
    is not cached. *)
Theorem todo_operations_keep_unique
    (todo : ObjRef) (ts : TodoService) :
  unique_cache (store ts) →
  unique_cache (store (updateTodo todo ts)) ∧
  unique_cache (store (completeTodo todo ts)) ∧
  (todo ∉ items (store ts) → unique_cache (store (addTodo todo ts))).
Proof.
  intros Hu. split_and!.
  - apply (unique_cache_replaceOrAdd todo (store ts) Hu).
  - apply (unique_cache_remove todo (store ts) Hu).
  - intros Hnotin. unfold unique_cache.
    rewrite items_addTodo. apply upsert_ids_NoDup.
    by rewrite cached_ids_addTodo_others.
Qed.

Lemma todo_operations_keep_unique_witness :
  unique_cache
    (store (addTodo 3%nat {| store := Sample.st_ab; nextId := 1 |})).
Proof.
  apply (todo_operations_keep_unique 3%nat
           {| store := Sample.st_ab; nextId := 1 |}).
  - apply (bool_decide_unpack _). vm_compute. exact I.
  - apply (bool_decide_unpack _). vm_compute. exact I.
Defined.

(** [addTodo] of an entity that is cached renumbers it where it is; when
    another cached entity has the new identifier and comes first, that
    one is replaced and the entity is cached twice. *)
Example addTodo_cached_entity_twice :
  let ts := addTodo 2%nat {| store := Sample.st_ab; nextId := 0 |} in
  items Sample.st_ab = [0; 2]%nat ∧
  cached_ids Sample.st_ab = [JsNum 1; JsNum 2] ∧
  items (store ts) = [2; 2]%nat ∧
  cached_ids (store ts) = [JsNum 1; JsNum 1].
Proof. vm_compute. done. Qed.
